(** * COPRA label propagation: scanner, selector and affected-vertex detectors

    A shallow embedding of [src/copra.hxx].  Vertex and community keys
    (template parameter [K]) are natural numbers; the only arithmetic the
    source performs on them is the slot counter [n++] of the selector, which
    the capacity check below bounds by [L].  Edge weights and belonging
    coefficients (template parameter [V], a floating-point type in the
    source) are exact rationals.  Every indexed access to a [vector] or to a
    fixed-capacity [Labelset] is checked: where the C++ code would read or
    write outside the container, or divide by zero (undefined behaviour in
    C++; NaN or an infinity under IEEE 754), the model stops with a fault
    instead of inventing a value. *)

From Stdlib Require Import QArith Qfield Lqa Sorted.
From stdpp Require Import base list.

Local Open Scope nat_scope.

(** ** Faults and the error monad *)

Inductive result (A : Type) : Type :=
| Ok (a : A)      (* the code runs to its end with [a] *)
| OutOfBounds     (* an index outside a [vector] or an [array] *)
| DivByZero       (* [x /= w] with [w] zero *)
| OutOfFuel.      (* the bound on the iterations of a loop was too small *)

Arguments Ok {A} a.
Arguments OutOfBounds {A}.
Arguments DivByZero {A}.
Arguments OutOfFuel {A}.

Definition bind {A B : Type} (m : result A) (f : A -> result B) : result B :=
  match m with
  | Ok a => f a
  | OutOfBounds => OutOfBounds
  | DivByZero => DivByZero
  | OutOfFuel => OutOfFuel
  end.

Notation "'do' x <- m ; f" := (bind m (fun x => f))
  (at level 10, x pattern, m at level 100, f at level 200,
   format "'[v' 'do'  x  <-  m ; '/' f ']'").

(** [t[i]] as an rvalue. *)
Definition rd {A : Type} (t : list A) (i : nat) : result A :=
  match t !! i with
  | Some a => Ok a
  | None => OutOfBounds
  end.

(** [t[i] = a]. *)
Definition wr {A : Type} (t : list A) (i : nat) (a : A) : result (list A) :=
  if decide (i < length t) then Ok (<[i:=a]> t) else OutOfBounds.

(** A [for] loop over a container whose body may fault. *)
Fixpoint foldM {A B : Type} (f : A -> B -> result A) (l : list B) (a : A)
  : result A :=
  match l with
  | [] => Ok a
  | b :: l' => do a' <- f a b; foldM f l' a'
  end.

(** ** Data model *)

(** The key type [K] and the weight type [V] of the templates. *)
Abbreviation K := nat (only parsing).
Abbreviation V := Q (only parsing).

(** [#define COPRA_LABELS 8] *)
Definition COPRA_LABELS : nat := 8.

(** [Labelset<K, V, L> = array<pair<K, V>, L>]: a list of [L] pairs. *)
Definition Labelset := list (K * V).

(** A default-constructed [array<pair<K, V>, L>]: [pair]'s default
    constructor value-initialises both members. *)
Definition emptyLabelset (L : nat) : Labelset := replicate L (0, 0%Q).

(** [!b] on a coefficient or weight. *)
Definition isZero (b : V) : bool := Qeq_bool b 0.

(** [a < b] on weights. *)
Definition Qltb (a b : V) : bool := negb (Qle_bool b a).

(** Modelled from the spec: the graph collaborator of [_main.hxx], which
    exposes the vertex count ("span"), the vertex keys in iteration order and,
    per vertex, its outgoing (neighbour, weight) edges. *)
Record Graph := {
  span : nat;
  vertexKeys : list K;
  edges : K -> list (K * V)
}.

(** The scan scratch state: [vcs] (touched communities) and [vcout]
    (accumulated weight per community). *)
Definition Scan := (list K * list V)%type.

(** ** COPRA-INITIALIZE *)

(** [vtot[u] = V(); forEachEdge(u, vtot[u] += w)] *)
Definition copraVertexWeights (vtot : list V) (x : Graph) : result (list V) :=
  foldM (fun t u =>
           do t0 <- wr t u 0%Q;
           foldM (fun t' e => do s <- rd t' u; wr t' u (s + snd e)%Q)
                 (edges x u) t0)
        (vertexKeys x) vtot.

(** [vcom[u] = {make_pair(u, V(1))}]: aggregate initialisation, the other
    slots are value-initialised. *)
Definition singletonLabelset (L : nat) (u : K) : Labelset :=
  match L with
  | 0 => []
  | S L' => (u, 1%Q) :: replicate L' (0, 0%Q)
  end.

Definition copraInitialize (L : nat) (vcom : list Labelset) (x : Graph)
  : result (list Labelset) :=
  foldM (fun t u => wr t u (singletonLabelset L u)) (vertexKeys x) vcom.

(** ** COPRA-CHOOSE-COMMUNITY *)

(** The range-for of [copraScanCommunity] over one labelset. *)
Fixpoint scanLabels (w : V) (ls : Labelset) (s : Scan) : result Scan :=
  match ls with
  | [] => Ok s
  | (c, b) :: ls' =>
    if isZero b then Ok s
    else
      do x <- rd (snd s) c;
      let vcs' := if isZero x then fst s ++ [c] else fst s in
      do vcout' <- wr (snd s) c (x + w * b)%Q;
      scanLabels w ls' (vcs', vcout')
  end.

Definition copraScanCommunity (SELF : bool) (s : Scan) (u v : K) (w : V)
    (vcom : list Labelset) : result Scan :=
  if negb SELF && (u =? v) then Ok s
  else
    do ls <- rd vcom u;
    scanLabels w ls s.

Definition copraScanCommunities (SELF : bool) (s : Scan) (x : Graph) (u : K)
    (vcom : list Labelset) : result Scan :=
  foldM (fun s' e => copraScanCommunity SELF s' u (fst e) (snd e) vcom)
        (edges x u) s.

(** The comparator [fl] of [copraSortScan]. *)
Definition fl (STRICT : bool) (vcout : list V) (c d : K) : result bool :=
  do wc <- rd vcout c;
  do wd <- rd vcout d;
  Ok (Qltb wc wd
      || (negb STRICT && Qeq_bool wc wd
          && negb (Nat.land (Nat.lxor c d) 2 =? 0))).

(** [sortValues(vcs, fl)]: the helper [sortValues] is declared in
    [_main.hxx], which is not among the sources at hand, so the sorting
    routine is a parameter of the model; it receives the comparator. *)
Definition copraSortScan
    (sortValues : list K -> (K -> K -> result bool) -> result (list K))
    (STRICT : bool) (vcs : list K) (vcout : list V) : result (list K) :=
  sortValues vcs (fl STRICT vcout).

(** [for (K c : vcs) vcout[c] = V(); vcs.clear();] *)
Definition copraClearScan (s : Scan) : result Scan :=
  do vcout' <- foldM (fun t c => wr t c 0%Q) (fst s) (snd s);
  Ok ([], vcout').

(** Loop state of [copraChooseCommunity]: the slot counter [n], the running
    total [w] and the labelset under construction [labs]. *)
Record Choice := { cn : nat; cw : V; clabs : Labelset }.

(** Step 1: [labs[n++] = {c, vcout[c]}; w += vcout[c];] for the labels at or
    above the threshold. *)
Fixpoint chooseAbove (vcs : list K) (vcout : list V) (WTH : V) (st : Choice)
  : result Choice :=
  match vcs with
  | [] => Ok st
  | c :: vcs' =>
    do x <- rd vcout c;
    if Qltb x WTH then chooseAbove vcs' vcout WTH st
    else
      do labs' <- wr (clabs st) (cn st) (c, x);
      chooseAbove vcs' vcout WTH
        {| cn := S (cn st); cw := (cw st + x)%Q; clabs := labs' |}
  end.

(** Step 2: the best label below the threshold is taken to be [vcs[0]]. *)
Definition chooseFallback (vcs : list K) (vcout : list V) (st : Choice)
  : result Choice :=
  match cn st, vcs with
  | 0, c :: _ =>
    do x <- rd vcout c;
    do labs' <- wr (clabs st) (cn st) (c, x);
    Ok {| cn := S (cn st); cw := (cw st + x)%Q; clabs := labs' |}
  | _, _ => Ok st
  end.

(** [labs[i].second /= w]. *)
Definition divideSlot (labs : Labelset) (i : nat) (w : V) : result Labelset :=
  do e <- rd labs i;
  if isZero w then DivByZero
  else wr labs i (fst e, (snd e / w)%Q).

(** Step 3: [for (K i=0; i<n; ++i) labs[i].second /= w;] with [k = n - i]
    iterations left. *)
Fixpoint normalizeFrom (k i : nat) (w : V) (labs : Labelset) : result Labelset :=
  match k with
  | 0 => Ok labs
  | S k' =>
    do labs' <- divideSlot labs i w;
    normalizeFrom k' (S i) w labs'
  end.

Definition copraChooseCommunity (L : nat) (u : K) (vcs : list K)
    (vcout : list V) (WTH : V) : result Labelset :=
  let st0 := {| cn := 0; cw := 0%Q; clabs := emptyLabelset L |} in
  do st1 <- chooseAbove vcs vcout WTH st0;
  do st2 <- chooseFallback vcs vcout st1;
  do labs <- normalizeFrom (cn st2) 0 (cw st2) (clabs st2);
  if cn st2 =? 0 then wr labs 0 (u, 1%Q) else Ok labs.

(** ** COPRA-BEST-COMMUNITIES *)

(** [vcom[u][0].first]: the primary community of [u]. *)
Definition primary (vcom : list Labelset) (u : K) : result K :=
  do ls <- rd vcom u;
  do e <- rd ls 0;
  Ok (fst e).

Fixpoint bestFrom (vcom : list Labelset) (i : nat) (k : nat) (a : list K)
  : result (list K) :=
  match k with
  | 0 => Ok a
  | S k' =>
    do c <- primary vcom i;
    do a' <- wr a i c;
    bestFrom vcom (S i) k' a'
  end.

Definition copraBestCommunities (vcom : list Labelset) : result (list K) :=
  bestFrom vcom 0 (length vcom) (replicate (length vcom) 0).

(** ** COPRA-AFFECTED-VERTICES-DELTA-SCREENING *)

Abbreviation Deletion := (K * K)%type (only parsing).
Abbreviation Insertion := (K * K * V)%type (only parsing).

(** The three flag vectors [vertices], [neighbors] and [communities]. *)
Record Flags := {
  vertices : list bool;
  neighbors : list bool;
  communities : list bool
}.

(** [vertices[u] = true; neighbors[u] = true; communities[c] = true;] *)
Definition markChanged (fs : Flags) (u c : K) : result Flags :=
  do vs <- wr (vertices fs) u true;
  do ns <- wr (neighbors fs) u true;
  do cs <- wr (communities fs) c true;
  Ok {| vertices := vs; neighbors := ns; communities := cs |}.

(** Body of the loop over [deletions]. *)
Definition screenDeletion (vcom : list Labelset) (fs : Flags) (d : Deletion)
  : result Flags :=
  let '(u, v) := d in
  do cu <- primary vcom u;
  do cv <- primary vcom v;
  if negb (cu =? cv) then Ok fs
  else markChanged fs u cv.

Definition screenDeletions (vcom : list Labelset) (dels : list Deletion)
    (fs : Flags) : result Flags :=
  foldM (screenDeletion vcom) dels fs.

(** The inner loop
    [for (; i<insertions.size() && get<0>(insertions[i])==u; ++i)]:
    returns the scratch state and the insertions from the final [i] on. *)
Fixpoint scanRun (u : K) (ins : list Insertion) (s : Scan)
    (vcom : list Labelset) : result (Scan * list Insertion) :=
  match ins with
  | [] => Ok (s, [])
  | (u', v, w) :: rest =>
    if u' =? u then
      do cu <- primary vcom u;
      do cv <- primary vcom v;
      if cu =? cv then scanRun u rest s vcom
      else
        do s' <- copraScanCommunity false s u v w vcom;
        scanRun u rest s' vcom
    else Ok (s, ins)
  end.

(** The outer loop [for (size_t i=0; i<insertions.size();)].  The source
    calls [copraChooseCommunity<STRICT>(x, u, vcs, vcout, B*vtot[u])] and reads
    the chosen labelset from its return value; the model passes the same
    vertex, scratch state and threshold to [copraChooseCommunity].  Each
    iteration consumes at least [insertions[i]], so [fuel] bounds the number
    of runs. *)
Fixpoint screenInsertions (fuel : nat) (L : nat) (vcom : list Labelset)
    (vtot : list V) (B : V) (ins : list Insertion) (s : Scan) (fs : Flags)
  : result Flags :=
  match ins with
  | [] => Ok fs
  | (u, _, _) :: _ =>
    match fuel with
    | 0 => OutOfFuel
    | S fuel' =>
      do s0 <- copraClearScan s;
      do (s1, rest) <- scanRun u ins s0 vcom;
      do t <- rd vtot u;
      do ls <- copraChooseCommunity L u (fst s1) (snd s1) (B * t)%Q;
      do cu <- primary vcom u;
      do e <- rd ls 0;
      let cl := fst e in
      if cl =? cu then screenInsertions fuel' L vcom vtot B rest s1 fs
      else
        do fs' <- markChanged fs u cl;
        screenInsertions fuel' L vcom vtot B rest s1 fs'
    end
  end.

(** [x.forEachEdgeKey(u, [&](auto v) { vertices[v] = true; })] *)
Definition markNeighbors (x : Graph) (u : K) (vs : list bool) : result (list bool) :=
  foldM (fun t e => wr t (fst e) true) (edges x u) vs.

(** Body of the final [forEachVertexKey]. *)
Definition propagate (x : Graph) (vcom : list Labelset) (ns cs : list bool)
    (vs : list bool) (u : K) : result (list bool) :=
  do cu <- primary vcom u;
  do nu <- rd ns u;
  do vs1 <- (if nu : bool then markNeighbors x u vs else Ok vs);
  do ccu <- rd cs cu;
  if ccu : bool then wr vs1 u true else Ok vs1.

Definition propagateAll (x : Graph) (vcom : list Labelset) (fs : Flags)
  : result (list bool) :=
  foldM (propagate x vcom (neighbors fs) (communities fs))
        (vertexKeys x) (vertices fs).

Definition copraAffectedVerticesDeltaScreening (L : nat) (x : Graph)
    (deletions : list Deletion) (insertions : list Insertion)
    (vcom : list Labelset) (vtot : list V) (B : V) : result (list bool) :=
  let S := span x in
  let s : Scan := ([], replicate S 0%Q) in
  let fs := {| vertices := replicate S false;
               neighbors := replicate S false;
               communities := replicate S false |} in
  do fs1 <- screenDeletions vcom deletions fs;
  do fs2 <- screenInsertions (length insertions) L vcom vtot B insertions s fs1;
  propagateAll x vcom fs2.

(** ** COPRA-AFFECTED-VERTICES-FRONTIER *)

Definition frontierDeletion (vcom : list Labelset) (vs : list bool) (d : Deletion)
  : result (list bool) :=
  let '(u, v) := d in
  do cu <- primary vcom u;
  do cv <- primary vcom v;
  if negb (cu =? cv) then Ok vs else wr vs u true.

Definition frontierInsertion (vcom : list Labelset) (vs : list bool) (i : Insertion)
  : result (list bool) :=
  let '(u, v, _) := i in
  do cu <- primary vcom u;
  do cv <- primary vcom v;
  if cu =? cv then Ok vs else wr vs u true.

Definition copraAffectedVerticesFrontier (x : Graph)
    (deletions : list Deletion) (insertions : list Insertion)
    (vcom : list Labelset) : result (list bool) :=
  let vs := replicate (span x) false in
  do vs1 <- foldM (frontierDeletion vcom) deletions vs;
  foldM (frontierInsertion vcom) insertions vs1.

(** ** A functional description of the selector

    The definitions of this part describe the result of the selector as list
    functions (candidate set, total weight, normalisation);
    [copraChooseCommunity_spec] below proves that the loops of
    [copraChooseCommunity] compute them. *)

(** The accumulated weight of community [c]. *)
Definition weightOf (vcout : list V) (c : K) : V := default 0%Q (vcout !! c).

(** "weight >= threshold". *)
Definition meetsThreshold (vcout : list V) (WTH : V) (c : K) : bool :=
  Qle_bool WTH (weightOf vcout c).

(** The touched communities that meet the threshold, in touched order. *)
Definition qualifying (vcs : list K) (vcout : list V) (WTH : V) : list K :=
  List.filter (meetsThreshold vcout WTH) vcs.

(** The candidate set: the qualifying communities, or else the head of the
    touched list. *)
Definition candidates (vcs : list K) (vcout : list V) (WTH : V) : list K :=
  match qualifying vcs vcout WTH with
  | [] => take 1 vcs
  | q => q
  end.

(** The running total [w += vcout[c]] over a list of communities. *)
Definition totalFrom (vcout : list V) (cs : list K) (w0 : V) : V :=
  fold_left Qplus (map (weightOf vcout) cs) w0.

Definition totalWeight (vcout : list V) (cs : list K) : V :=
  totalFrom vcout cs 0%Q.

(** Each candidate with its weight divided by [w]. *)
Definition normalized (vcout : list V) (w : V) (cs : list K) : Labelset :=
  map (fun c => (c, (weightOf vcout c / w)%Q)) cs.

(** A labelset holding [entries] in its first slots, zero elsewhere. *)
Definition labelsetOf (L : nat) (entries : Labelset) : Labelset :=
  entries ++ replicate (L - length entries) (0, 0%Q).

(** The sum of the coefficients of a labelset. *)
Definition sumCoefficients (a : Labelset) : V :=
  fold_right Qplus 0%Q (map snd a).

(** The touched list is ordered by accumulated weight, highest first. *)
Definition sortedDescending (vcout : list V) (vcs : list K) : Prop :=
  StronglySorted (fun c d => (weightOf vcout d <= weightOf vcout c)%Q) vcs.

(** All communities of a list are valid indices of [vcout]. *)
Definition inRange (vcout : list V) (cs : list K) : Prop :=
  Forall (fun c => c < length vcout) cs.

(** ** The scanner in the words of the specification: iterate the
    neighbour [v]'s labelset. *)
Definition specScanCommunity (SELF : bool) (s : Scan) (u v : K) (w : V)
    (vcom : list Labelset) : result Scan :=
  if negb SELF && (u =? v) then Ok s
  else
    do ls <- rd vcom v;
    scanLabels w ls s.

(** ** Auxiliary notions for the detectors *)

(** The endpoints of a deletion have the same primary community. *)
Definition sameCommunity (vcom : list Labelset) (d : Deletion) : bool :=
  match primary vcom (fst d), primary vcom (snd d) with
  | Ok cu, Ok cv => cu =? cv
  | _, _ => false
  end.

(** Every vertex of the graph lies below the span and has a primary
    community below the span: the accesses of the final pass of
    delta-screening stay inside their tables. *)
Definition wellFormed (x : Graph) (vcom : list Labelset) : Prop :=
  Forall (fun u => u < span x /\ exists c, primary vcom u = Ok c /\ c < span x)
         (vertexKeys x).

(** Every flag set in [a] is set in [b]. *)
Definition flagsIncluded (a b : list bool) : Prop :=
  forall i, a !! i = Some true -> b !! i = Some true.

Definition marksIncluded (fs fs' : Flags) : Prop :=
  flagsIncluded (vertices fs) (vertices fs')
  /\ flagsIncluded (neighbors fs) (neighbors fs')
  /\ flagsIncluded (communities fs) (communities fs').

(** What a same-community deletion leaves in the three flag vectors. *)
Definition deletionMarked (vcom : list Labelset) (d : Deletion) (fs : Flags) : Prop :=
  forall c, primary vcom (fst d) = Ok c -> primary vcom (snd d) = Ok c ->
    vertices fs !! fst d = Some true
    /\ neighbors fs !! fst d = Some true
    /\ communities fs !! c = Some true.

(** What the final pass does for vertex [u]. *)
Definition propagated (x : Graph) (vcom : list Labelset) (ns cs : list bool)
    (u : K) (vs : list bool) : Prop :=
  (ns !! u = Some true ->
   forall n, n ∈ map fst (edges x u) -> vs !! n = Some true)
  /\ (forall c, primary vcom u = Ok c -> cs !! c = Some true ->
      vs !! u = Some true).

(** The three flag vectors have [n] entries each. *)
Definition sized (n : nat) (fs : Flags) : Prop :=
  length (vertices fs) = n /\ length (neighbors fs) = n /\ length (communities fs) = n.

(** The endpoints of every edge of the graph lie below the span. *)
Definition edgesInRange (x : Graph) : Prop :=
  Forall (fun u => Forall (fun e : K * V => fst e < span x) (edges x u)) (vertexKeys x).

(** The source of every deletion lies below the span, and both endpoints
    have a primary community, the destination's below the span. *)
Definition deletionsInRange (x : Graph) (vcom : list Labelset)
    (dels : list Deletion) : Prop :=
  Forall (fun d : K * K =>
            fst d < span x
            /\ exists cu cv, primary vcom (fst d) = Ok cu
                             /\ primary vcom (snd d) = Ok cv
                             /\ cv < span x) dels.

(** The run did not stop for lack of fuel. *)
Definition terminates {A : Type} (r : result A) : Prop := r <> OutOfFuel.

(** The helper [sortValues] of [_main.hxx] is taken to follow the
    convention of [std::sort]: an element [a] for which the comparator
    [lt a b] holds is placed before [b].  The insertion sort below is one
    such routine; it is used only to run [copraSortScan] on examples. *)
Fixpoint insertSorted (lt : K -> K -> result bool) (a : K) (l : list K)
  : result (list K) :=
  match l with
  | [] => Ok [a]
  | b :: l' =>
    do p <- lt a b;
    if p : bool then Ok (a :: l)
    else do r <- insertSorted lt a l'; Ok (b :: r)
  end.

Definition insertionSort (vcs : list K) (lt : K -> K -> result bool)
  : result (list K) :=
  foldM (fun acc a => insertSorted lt a acc) vcs [].

(** ** Concrete inputs used by the examples *)

(** Every vertex in its own community, as after [copraInitialize]. *)
Definition ownCommunities (L n : nat) : list Labelset :=
  map (singletonLabelset L) (seq 0 n).

(** The path 0 - 1 - 2 with unit weights. *)
Definition pathGraph : Graph :=
  {| span := 3;
     vertexKeys := [0; 1; 2];
     edges := fun u =>
       match u with
       | 0 => [(1, 1%Q)]
       | 1 => [(0, 1%Q); (2, 1%Q)]
       | 2 => [(1, 1%Q)]
       | _ => []
       end |}.

(** The path 0 - 1 - 2 after the edge 0 - 2 of weight 5 has been inserted. *)
Definition triangleGraph : Graph :=
  {| span := 3;
     vertexKeys := [0; 1; 2];
     edges := fun u =>
       match u with
       | 0 => [(1, 1%Q); (2, 5%Q)]
       | 1 => [(0, 1%Q); (2, 1%Q)]
       | 2 => [(0, 5%Q); (1, 1%Q)]
       | _ => []
       end |}.

(** Vertex 0 with the single edge 0 - 2 of weight 5; vertex 1 isolated. *)
Definition starGraph : Graph :=
  {| span := 3;
     vertexKeys := [0; 1; 2];
     edges := fun u =>
       match u with
       | 0 => [(2, 5%Q)]
       | 2 => [(0, 5%Q)]
       | _ => []
       end |}.

(** Two vertices joined by an edge of weight zero. *)
Definition zeroWeightGraph : Graph :=
  {| span := 2;
     vertexKeys := [0; 1];
     edges := fun u =>
       match u with
       | 0 => [(1, 0%Q)]
       | 1 => [(0, 0%Q)]
       | _ => []
       end |}.

(** Accumulated weights 0, 1 and 3 for communities 0, 1 and 2. *)
Definition sampleWeights : list V := [0; 1; 3]%Q.

(** Communities 1 and 2 touched, in this order. *)
Definition sampleTouched : list K := [1; 2].

(** The edges 0 - 1 and 2 - 3, with unit weights. *)
Definition twoPairsGraph : Graph :=
  {| span := 4;
     vertexKeys := [0; 1; 2; 3];
     edges := fun u =>
       match u with
       | 0 => [(1, 1%Q)]
       | 1 => [(0, 1%Q)]
       | 2 => [(3, 1%Q)]
       | 3 => [(2, 1%Q)]
       | _ => []
       end |}.

(** Vertices 0 and 1 in community 0, vertices 2 and 3 in community 2. *)
Definition twoPairsCommunities : list Labelset :=
  [singletonLabelset COPRA_LABELS 0; singletonLabelset COPRA_LABELS 0;
   singletonLabelset COPRA_LABELS 2; singletonLabelset COPRA_LABELS 2].

(** The undirected deletion of the edge 0 - 1. *)
Definition deletedEdge : list Deletion := [(0, 1); (1, 0)].

(** The undirected insertion of the edge 0 - 2 with weight 5. *)
Definition insertedEdge : list Insertion := [(0, 2, 5%Q); (2, 0, 5%Q)].

(** Two vertices, both in community 1. *)
Definition bothInCommunityOne : list Labelset :=
  replicate 2 (singletonLabelset COPRA_LABELS 1).

(** ** Notions used by the further properties of the code *)

(** The total weight of the outgoing edges of [u]: the value that the loop
    [vtot[u] += w] of [copraVertexWeights] builds from [V()]. *)
Definition edgeWeight (x : Graph) (u : K) : V :=
  fold_left Qplus (map snd (edges x u)) 0%Q.

(** The entries of a labelset before its first zero coefficient. *)
Fixpoint populatedPrefix (ls : Labelset) : Labelset :=
  match ls with
  | [] => []
  | (c, b) :: ls' => if isZero b then [] else (c, b) :: populatedPrefix ls'
  end.

(** The sum of all accumulated weights of the scratch table. *)
Definition sumWeights (vcout : list V) : V := fold_right Qplus 0%Q vcout.

(** Every entry of [vcout] other than the initial zero belongs to a
    community of the touched list. *)
Definition scratchTracked (s : Scan) : Prop :=
  forall c x, snd s !! c = Some x -> x = 0%Q \/ c ∈ fst s.

(** The touched list has no duplicates, the accumulated weights are
    non-negative, and the touched communities are exactly those of positive
    accumulated weight. *)
Definition scratchPositive (s : Scan) : Prop :=
  NoDup (fst s)
  /\ (forall c x, snd s !! c = Some x -> (0 <= x)%Q)
  /\ (forall c, c ∈ fst s <-> exists x, snd s !! c = Some x /\ (0 < x)%Q).

(** The scratch state keeps its shape over a scan: the table keeps its
    length, touched communities stay inside it and untracked entries stay
    zero. *)
Definition scanKeeps (s s' : Scan) : Prop :=
  length (snd s') = length (snd s)
  /\ (inRange (snd s) (fst s) -> inRange (snd s') (fst s'))
  /\ (scratchTracked s -> scratchTracked s').

(** A single vertex whose only edges are two self-loops. *)
Definition selfLoopGraph : Graph :=
  {| span := 1;
     vertexKeys := [0];
     edges := fun u => match u with 0 => [(0, 2%Q); (0, 3%Q)] | _ => [] end |}.

(** The endpoints of an insertion have different primary communities. *)
Definition differentCommunity (vcom : list Labelset) (i : K * K * V) : bool :=
  match primary vcom (fst (fst i)), primary vcom (snd (fst i)) with
  | Ok cu, Ok cv => negb (cu =? cv)
  | _, _ => false
  end.

(** * Basic facts about checked accesses *)

Section Access.
Context {A : Type}.
Implicit Types (t : list A) (i : nat) (a : A).

Lemma rd_Ok t i a : rd t i = Ok a <-> t !! i = Some a.
Proof.
  unfold rd. destruct (t !! i); split; intros H; congruence.
Qed.

Lemma rd_lookup t i a : t !! i = Some a -> rd t i = Ok a.
Proof. apply rd_Ok. Qed.

Lemma rd_middle (pre post : list A) a : rd (pre ++ a :: post) (length pre) = Ok a.
Proof. apply rd_lookup, list_lookup_middle. reflexivity. Qed.

Lemma wr_Ok t i a t' : wr t i a = Ok t' <-> i < length t /\ t' = <[i:=a]> t.
Proof.
  unfold wr. destruct (decide (i < length t)); split.
  - intros [= <-]. auto.
  - intros [_ ->]. reflexivity.
  - discriminate.
  - intros [? _]. contradiction.
Qed.

Lemma wr_lt t i a : i < length t -> wr t i a = Ok (<[i:=a]> t).
Proof. intros H. apply wr_Ok. auto. Qed.

Lemma wr_ge t i a : length t <= i -> wr t i a = OutOfBounds.
Proof. intros H. unfold wr. destruct (decide (i < length t)); [lia | reflexivity]. Qed.

Lemma wr_middle (pre post : list A) a b :
  wr (pre ++ a :: post) (length pre) b = Ok (pre ++ b :: post).
Proof.
  rewrite wr_lt.
  - f_equal. replace (length pre) with (length pre + 0) by lia.
    rewrite insert_app_r. reflexivity.
  - rewrite length_app. simpl. lia.
Qed.

Lemma wr_head (post : list A) a b : wr (a :: post) 0 b = Ok (b :: post).
Proof. apply (wr_middle [] post a b). Qed.
End Access.

Lemma bind_Ok {A B : Type} (m : result A) (f : A -> result B) (b : B) :
  bind m f = Ok b <-> exists a, m = Ok a /\ f a = Ok b.
Proof.
  destruct m; simpl; split; try discriminate.
  - eauto.
  - intros (a' & [= ->] & H). exact H.
  - intros (? & ? & _). discriminate.
  - intros (? & ? & _). discriminate.
  - intros (? & ? & _). discriminate.
Qed.

Lemma rd_weightOf (vcout : list V) (c : K) :
  c < length vcout -> rd vcout c = Ok (weightOf vcout c).
Proof.
  intros H. apply lookup_lt_is_Some in H as [x Hx].
  unfold rd, weightOf. rewrite Hx. reflexivity.
Qed.

(** * The selector *)

Section Selector.
Variables (vcout : list V) (WTH : V).

Lemma Qltb_meets c :
  Qltb (weightOf vcout c) WTH = negb (meetsThreshold vcout WTH c).
Proof. reflexivity. Qed.

(** Step 1 writes the qualifying communities into the free slots. *)
Lemma chooseAbove_spec vcs : forall (pre : Labelset) (k : nat) (w : V),
  inRange vcout vcs ->
  length (qualifying vcs vcout WTH) <= k ->
  chooseAbove vcs vcout WTH
    {| cn := length pre; cw := w; clabs := pre ++ replicate k (0, 0%Q) |}
  = Ok {| cn := length pre + length (qualifying vcs vcout WTH);
          cw := totalFrom vcout (qualifying vcs vcout WTH) w;
          clabs := pre
                   ++ map (fun c => (c, weightOf vcout c)) (qualifying vcs vcout WTH)
                   ++ replicate (k - length (qualifying vcs vcout WTH)) (0, 0%Q) |}.
Proof.
  induction vcs as [|c vcs IH]; intros pre k w Hin Hk.
  - simpl. rewrite Nat.add_0_r, Nat.sub_0_r. reflexivity.
  - apply Forall_cons in Hin as [Hc Hin].
    cbn [chooseAbove]. rewrite (rd_weightOf _ _ Hc). cbn [bind].
    rewrite Qltb_meets. unfold qualifying in *. cbn [List.filter] in *.
    destruct (meetsThreshold vcout WTH c); cbn [negb].
    + cbn [length] in Hk. destruct k as [|k]; [lia|].
      cbn [cn cw clabs replicate]. rewrite wr_middle. cbn [bind].
      specialize (IH (pre ++ [(c, weightOf vcout c)]) k (w + weightOf vcout c)%Q Hin).
      rewrite length_app in IH. cbn [length] in IH.
      replace (length pre + 1) with (S (length pre)) in IH by lia.
      rewrite <- app_assoc in IH. cbn [app] in IH.
      rewrite IH by lia. cbn [length map app]. f_equal. f_equal; [lia|].
      rewrite <- app_assoc. reflexivity.
    + apply IH; assumption.
Qed.

(** Step 1 faults as soon as more communities qualify than slots remain:
    the selector performs no truncation. *)
Lemma chooseAbove_overflow vcs : forall (pre : Labelset) (k : nat) (w : V),
  inRange vcout vcs ->
  k < length (qualifying vcs vcout WTH) ->
  chooseAbove vcs vcout WTH
    {| cn := length pre; cw := w; clabs := pre ++ replicate k (0, 0%Q) |}
  = OutOfBounds.
Proof.
  induction vcs as [|c vcs IH]; intros pre k w Hin Hk.
  - simpl in Hk. lia.
  - apply Forall_cons in Hin as [Hc Hin].
    cbn [chooseAbove]. rewrite (rd_weightOf _ _ Hc). cbn [bind].
    rewrite Qltb_meets. unfold qualifying in *. cbn [List.filter] in *.
    destruct (meetsThreshold vcout WTH c); cbn [negb].
    + cbn [length] in Hk. cbn [cn cw clabs]. destruct k as [|k].
      * rewrite wr_ge; [reflexivity|].
        cbn [replicate]. rewrite app_nil_r. lia.
      * cbn [replicate]. rewrite wr_middle. cbn [bind].
        specialize (IH (pre ++ [(c, weightOf vcout c)]) k (w + weightOf vcout c)%Q Hin).
        rewrite length_app in IH. cbn [length] in IH.
        replace (length pre + 1) with (S (length pre)) in IH by lia.
        rewrite <- app_assoc in IH. cbn [app] in IH.
        apply IH. lia.
    + apply IH; assumption.
Qed.

(** Step 3 divides exactly the [n] written slots. *)
Lemma normalizeFrom_spec (w : V) (mid : Labelset) : forall (pre post : Labelset),
  isZero w = false ->
  normalizeFrom (length mid) (length pre) w (pre ++ mid ++ post)
  = Ok (pre ++ map (fun e => (fst e, (snd e / w)%Q)) mid ++ post).
Proof.
  induction mid as [|e mid IH]; intros pre post Hw; [reflexivity|].
  cbn [length normalizeFrom app]. unfold divideSlot.
  rewrite rd_middle. cbn [bind]. rewrite Hw, wr_middle. cbn [bind].
  specialize (IH (pre ++ [(fst e, (snd e / w)%Q)]) post Hw).
  rewrite length_app in IH. cbn [length] in IH.
  replace (length pre + 1) with (S (length pre)) in IH by lia.
  rewrite <- app_assoc in IH. cbn [app] in IH. rewrite IH.
  rewrite <- app_assoc. reflexivity.
Qed.

(** With a zero total, the first division of step 3 is a division by zero. *)
Lemma normalizeFrom_zero (w : V) (e : K * V) (mid post : Labelset) :
  isZero w = true ->
  normalizeFrom (length (e :: mid)) 0 w (e :: mid ++ post) = DivByZero.
Proof.
  intros Hw. cbn [length normalizeFrom]. unfold divideSlot.
  change (rd (e :: mid ++ post) 0) with (Ok e). cbn [bind].
  rewrite Hw. reflexivity.
Qed.

Lemma length_weights (cs : list K) :
  length (map (fun c => (c, weightOf vcout c)) cs) = length cs.
Proof. apply length_map. Qed.

Lemma normalized_weights (w : V) (cs : list K) :
  map (fun e : K * V => (fst e, (snd e / w)%Q))
      (map (fun c => (c, weightOf vcout c)) cs)
  = normalized vcout w cs.
Proof. unfold normalized. rewrite map_map. reflexivity. Qed.

(** The selector, characterised on every input whose touched communities
    index [vcout]: it faults when the labelset has no slot or more
    communities qualify than it has slots, divides by zero when the
    candidates weigh nothing, and otherwise stores the normalised
    candidates, or the vertex's own label when nothing was touched. *)
Lemma copraChooseCommunity_spec (L : nat) (u : K) (vcs : list K) :
  inRange vcout vcs ->
  copraChooseCommunity L u vcs vcout WTH =
  let cs := candidates vcs vcout WTH in
  if (L =? 0) || (L <? length (qualifying vcs vcout WTH)) then OutOfBounds
  else match cs with
       | [] => Ok (singletonLabelset L u)
       | _ :: _ =>
         if isZero (totalWeight vcout cs) then DivByZero
         else Ok (labelsetOf L (normalized vcout (totalWeight vcout cs) cs))
       end.
Proof.
  intros Hin. unfold copraChooseCommunity, emptyLabelset. cbv zeta.
  destruct (Nat.ltb_spec L (length (qualifying vcs vcout WTH))) as [Hov|Hle].
  { pose proof (chooseAbove_overflow vcs [] L 0%Q Hin Hov) as Ho.
    cbn [length app] in Ho. rewrite Ho.
    rewrite orb_true_r. reflexivity. }
  rewrite orb_false_r.
  pose proof (chooseAbove_spec vcs [] L 0%Q Hin Hle) as Hs.
  cbn [length app Nat.add] in Hs. rewrite Hs. clear Hs. cbn [bind].
  unfold candidates, chooseFallback.
  destruct (qualifying vcs vcout WTH) as [|q0 q] eqn:Hq.
  - cbn [length map app cn cw clabs totalFrom fold_left]. rewrite Nat.sub_0_r.
    destruct vcs as [|c vcs'].
    + cbn [take bind normalizeFrom cn cw clabs Nat.eqb].
      destruct L as [|L']; reflexivity.
    + apply Forall_cons in Hin as [Hc _].
      change (take 1 (c :: vcs')) with (c :: take 0 vcs'). rewrite take_0.
      rewrite (rd_weightOf _ _ Hc). cbn [bind].
      destruct L as [|L']; [reflexivity|].
      cbn [Nat.eqb replicate]. rewrite wr_head. cbn [bind cn cw clabs].
      unfold totalWeight, totalFrom. cbn [map fold_left].
      destruct (isZero (0 + weightOf vcout c)%Q) eqn:Hz.
      * pose proof (normalizeFrom_zero _ (c, weightOf vcout c) []
                      (replicate L' (0, 0%Q)) Hz) as Hn.
        cbn [length app] in Hn. rewrite Hn. reflexivity.
      * pose proof (normalizeFrom_spec (0 + weightOf vcout c)%Q
                      [(c, weightOf vcout c)] [] (replicate L' (0, 0%Q)) Hz) as Hn.
        cbn [length app map] in Hn. rewrite Hn. cbn [bind Nat.eqb].
        unfold labelsetOf, normalized. cbn [map length app fst snd Nat.sub].
        rewrite ?Nat.sub_0_r. reflexivity.
  - destruct L as [|L']; [cbn [length] in Hle; lia|].
    cbn [Nat.eqb length bind cn cw clabs map app]. unfold totalWeight.
    set (w := totalFrom vcout (q0 :: q) 0%Q).
    destruct (isZero w) eqn:Hz.
    + pose proof (normalizeFrom_zero w (q0, weightOf vcout q0)
                    (map (fun c => (c, weightOf vcout c)) q)
                    (replicate (S L' - S (length q)) (0, 0%Q)) Hz) as Hn.
      cbn [length] in Hn. rewrite length_weights in Hn.
      rewrite Hn. reflexivity.
    + pose proof (normalizeFrom_spec w
                    (map (fun c => (c, weightOf vcout c)) (q0 :: q)) []
                    (replicate (S L' - S (length q)) (0, 0%Q)) Hz) as Hn.
      rewrite length_weights, normalized_weights in Hn.
      cbn [length app map] in Hn. rewrite Hn. cbn [bind Nat.eqb].
      unfold labelsetOf, normalized. rewrite length_map. reflexivity.
Qed.
End Selector.

(** * Sums of weights and coefficients *)

Lemma isZero_false (w : V) : isZero w = false <-> ~ (w == 0)%Q.
Proof.
  unfold isZero. split.
  - intros H E. apply Qeq_bool_iff in E. congruence.
  - intros H. destruct (Qeq_bool w 0) eqn:E; [|reflexivity].
    apply Qeq_bool_iff in E. contradiction.
Qed.

Lemma fold_left_Qplus (l : list V) : forall a : V,
  (fold_left Qplus l a == a + fold_right Qplus 0 l)%Q.
Proof.
  induction l as [|x l IH]; intros a; cbn [fold_left fold_right].
  - ring.
  - rewrite IH. ring.
Qed.

Lemma totalFrom_sum (vcout : list V) (cs : list K) (w0 : V) :
  (totalFrom vcout cs w0 == w0 + fold_right Qplus 0 (map (weightOf vcout) cs))%Q.
Proof. apply fold_left_Qplus. Qed.

Lemma sumCoefficients_normalized (vcout : list V) (w : V) (cs : list K) :
  (sumCoefficients (normalized vcout w cs)
   == fold_right Qplus 0 (map (weightOf vcout) cs) / w)%Q.
Proof.
  unfold sumCoefficients, normalized.
  induction cs as [|c cs IH]; cbn [map fold_right snd].
  - unfold Qdiv. ring.
  - rewrite IH. unfold Qdiv. ring.
Qed.

Lemma sumCoefficients_app (a b : Labelset) :
  (sumCoefficients (a ++ b) == sumCoefficients a + sumCoefficients b)%Q.
Proof.
  unfold sumCoefficients. induction a as [|e a IH]; cbn [app map fold_right].
  - ring.
  - rewrite IH. ring.
Qed.

Lemma sumCoefficients_zeros (k : nat) :
  (sumCoefficients (replicate k (0%nat, 0)) == 0)%Q.
Proof.
  unfold sumCoefficients. induction k as [|k IH]; cbn [replicate map fold_right snd].
  - reflexivity.
  - rewrite IH. ring.
Qed.

Lemma sumCoefficients_labelsetOf (L : nat) (a : Labelset) :
  (sumCoefficients (labelsetOf L a) == sumCoefficients a)%Q.
Proof.
  unfold labelsetOf. rewrite sumCoefficients_app, sumCoefficients_zeros. ring.
Qed.

(** The coefficients of the normalised candidates add up to one. *)
Lemma sumCoefficients_total (vcout : list V) (cs : list K) :
  ~ (totalWeight vcout cs == 0)%Q ->
  (sumCoefficients (normalized vcout (totalWeight vcout cs) cs) == 1)%Q.
Proof.
  intros Hnz. rewrite sumCoefficients_normalized.
  assert (E : (fold_right Qplus 0 (map (weightOf vcout) cs) == totalWeight vcout cs)%Q).
  { unfold totalWeight. rewrite totalFrom_sum. ring. }
  rewrite E. field. exact Hnz.
Qed.

Lemma length_labelsetOf (L : nat) (a : Labelset) :
  length a <= L -> length (labelsetOf L a) = L.
Proof.
  intros H. unfold labelsetOf. rewrite length_app, length_replicate. lia.
Qed.



Lemma singletonLabelset_labelsetOf (L : nat) (u : K) :
  1 <= L -> singletonLabelset L u = labelsetOf L [(u, 1%Q)].
Proof.
  intros H. destruct L as [|L']; [lia|].
  unfold labelsetOf. cbn [singletonLabelset length app Nat.sub].
  rewrite Nat.sub_0_r. reflexivity.
Qed.

Lemma weights_nonneg_sum (vcout : list V) (cs : list K) :
  Forall (fun c => (0 < weightOf vcout c)%Q) cs ->
  (0 <= fold_right Qplus 0 (map (weightOf vcout) cs))%Q.
Proof.
  induction 1 as [|c cs Hc _ IH]; cbn [map fold_right]; lra.
Qed.

Lemma weights_positive_total (vcout : list V) (cs : list K) :
  Forall (fun c => (0 < weightOf vcout c)%Q) cs -> cs <> [] ->
  (0 < totalWeight vcout cs)%Q.
Proof.
  intros Hpos Hne. unfold totalWeight. rewrite totalFrom_sum.
  destruct Hpos as [|c cs Hc Hcs]; [congruence|].
  cbn [map fold_right]. pose proof (weights_nonneg_sum _ _ Hcs). lra.
Qed.

Lemma qualifying_subset (vcs : list K) (vcout : list V) (WTH : V) (P : K -> Prop) :
  Forall P vcs -> Forall P (qualifying vcs vcout WTH).
Proof.
  intros H. induction H as [|c vcs Hc _ IH]; unfold qualifying in *; cbn [List.filter].
  - constructor.
  - destruct (meetsThreshold vcout WTH c); [constructor|]; assumption.
Qed.

Lemma meetsThreshold_le (vcout : list V) (WTH : V) (c : K) :
  meetsThreshold vcout WTH c = true <-> (WTH <= weightOf vcout c)%Q.
Proof. apply Qle_bool_iff. Qed.

Lemma elem_of_qualifying (vcs : list K) (vcout : list V) (WTH : V) (c : K) :
  c ∈ qualifying vcs vcout WTH <-> c ∈ vcs /\ (WTH <= weightOf vcout c)%Q.
Proof.
  unfold qualifying. rewrite !list_elem_of_In, filter_In, meetsThreshold_le.
  reflexivity.
Qed.

(** Every qualifying community weighs at least the threshold, so their
    number times the threshold is bounded by the total scanned weight. *)
Lemma qualifying_count_bound (vcs : list K) (vcout : list V) (WTH : V) :
  Forall (fun c => (0 < weightOf vcout c)%Q) vcs ->
  (inject_Z (Z.of_nat (length (qualifying vcs vcout WTH))) * WTH
   <= fold_right Qplus 0 (map (weightOf vcout) vcs))%Q.
Proof.
  induction 1 as [|c vcs Hc Hcs IH]; unfold qualifying in *;
    cbn [List.filter map fold_right length].
  - change (inject_Z (Z.of_nat 0)) with 0%Q. lra.
  - destruct (meetsThreshold vcout WTH c) eqn:Hm.
    + apply meetsThreshold_le in Hm. cbn [length].
      rewrite Nat2Z.inj_succ, <- Z.add_1_r, inject_Z_plus.
      change (inject_Z 1) with 1%Q. lra.
    + lra.
Qed.

Lemma capacity_check_passes (L n : nat) :
  1 <= L -> n <= L -> (L =? 0) || (L <? n) = false.
Proof.
  intros H1 H2. apply orb_false_iff. split.
  - apply Nat.eqb_neq. lia.
  - apply Nat.ltb_ge. exact H2.
Qed.

Lemma candidates_qualifying (vcs : list K) (vcout : list V) (WTH : V) :
  qualifying vcs vcout WTH <> [] ->
  candidates vcs vcout WTH = qualifying vcs vcout WTH.
Proof.
  unfold candidates. destruct (qualifying vcs vcout WTH); congruence.
Qed.

Lemma candidates_fallback (c : K) (vcs : list K) (vcout : list V) (WTH : V) :
  qualifying (c :: vcs) vcout WTH = [] ->
  candidates (c :: vcs) vcout WTH = [c].
Proof.
  unfold candidates. intros ->. cbn [take]. rewrite take_0. reflexivity.
Qed.

Lemma candidates_subset (vcs : list K) (vcout : list V) (WTH : V) (P : K -> Prop) :
  Forall P vcs -> Forall P (candidates vcs vcout WTH).
Proof.
  intros H. unfold candidates.
  pose proof (qualifying_subset vcs vcout WTH P H) as Hq.
  destruct (qualifying vcs vcout WTH); [|exact Hq].
  destruct H as [|c vcs Hc _]; cbn [take]; [constructor|].
  rewrite take_0. repeat constructor. exact Hc.
Qed.

Lemma candidates_nonempty (vcs : list K) (vcout : list V) (WTH : V) :
  vcs <> [] -> candidates vcs vcout WTH <> [].
Proof.
  intros Hne. unfold candidates.
  destruct (qualifying vcs vcout WTH); [|discriminate].
  destruct vcs; [congruence|]. cbn [take]. discriminate.
Qed.

Lemma length_candidates (vcs : list K) (vcout : list V) (WTH : V) :
  length (candidates vcs vcout WTH)
  = Nat.max (length (qualifying vcs vcout WTH)) (Nat.min 1 (length vcs)).
Proof.
  unfold candidates.
  destruct (qualifying vcs vcout WTH) as [|q0 q] eqn:Hq.
  - rewrite length_take. cbn [length]. lia.
  - assert (vcs <> []) as Hne.
    { intros ->. discriminate Hq. }
    destruct vcs; [congruence|]. cbn [length]. lia.
Qed.

(** The selector succeeds, with the normalised candidates in the leading
    slots, whenever the touched communities index [vcout], the qualifying
    ones fit into the labelset, and the candidates have a nonzero total. *)
Lemma copraChooseCommunity_Ok (L : nat) (u : K) (vcs : list K)
    (vcout : list V) (WTH : V) :
  inRange vcout vcs ->
  1 <= L ->
  length (qualifying vcs vcout WTH) <= L ->
  vcs <> [] ->
  ~ (totalWeight vcout (candidates vcs vcout WTH) == 0)%Q ->
  copraChooseCommunity L u vcs vcout WTH
  = Ok (labelsetOf L (normalized vcout
                        (totalWeight vcout (candidates vcs vcout WTH))
                        (candidates vcs vcout WTH))).
Proof.
  intros Hin HL Hcap Hne Hnz.
  rewrite copraChooseCommunity_spec by exact Hin. cbv zeta.
  rewrite capacity_check_passes by assumption.
  pose proof (candidates_nonempty vcs vcout WTH Hne) as Hc.
  destruct (candidates vcs vcout WTH) as [|c cs]; [congruence|].
  apply isZero_false in Hnz. rewrite Hnz. reflexivity.
Qed.

(** * Claims about the selector *)


(** C5 (as amended).  When the selector runs within capacity on a non-empty
    touched list whose candidates have a nonzero total, the stored
    communities are the candidate set: if some touched community reaches the
    threshold, exactly the touched communities at or above it; otherwise
    exactly the head [vcs[0]] of the touched list, which is a community of
    highest accumulated weight when the caller has ordered the list by
    descending weight. *)
Theorem copraChooseCommunity_candidate_set
    (L : nat) (u : K) (vcs : list K) (vcout : list V) (WTH : V) :
  inRange vcout vcs ->
  1 <= L ->
  length (qualifying vcs vcout WTH) <= L ->
  vcs <> [] ->
  ~ (totalWeight vcout (candidates vcs vcout WTH) == 0)%Q ->
  exists cs : list K,
    copraChooseCommunity L u vcs vcout WTH
    = Ok (labelsetOf L (normalized vcout (totalWeight vcout cs) cs))
    /\ ((exists c, c ∈ vcs /\ (WTH <= weightOf vcout c)%Q) ->
        cs = qualifying vcs vcout WTH
        /\ forall c, c ∈ cs <-> c ∈ vcs /\ (WTH <= weightOf vcout c)%Q)
    /\ ((forall c, c ∈ vcs -> (weightOf vcout c < WTH)%Q) ->
        exists c0, vcs !! 0 = Some c0 /\ cs = [c0]
        /\ (sortedDescending vcout vcs ->
            forall d, d ∈ vcs -> (weightOf vcout d <= weightOf vcout c0)%Q)).
Proof.
  intros Hin HL Hcap Hne Hnz.
  exists (candidates vcs vcout WTH).
  split; [apply copraChooseCommunity_Ok; assumption|]. split.
  - intros (c & Hc & Hw).
    assert (Hq : qualifying vcs vcout WTH <> []).
    { intros E. assert (Hel : c ∈ qualifying vcs vcout WTH)
        by (apply elem_of_qualifying; auto).
      rewrite E in Hel. inversion Hel. }
    rewrite (candidates_qualifying _ _ _ Hq). split; [reflexivity|].
    intros d. apply elem_of_qualifying.
  - intros Hbelow. destruct vcs as [|c0 vcs']; [congruence|].
    assert (Hq : qualifying (c0 :: vcs') vcout WTH = []).
    { destruct (qualifying (c0 :: vcs') vcout WTH) as [|d q] eqn:E; [reflexivity|].
      assert (Hel : d ∈ qualifying (c0 :: vcs') vcout WTH)
        by (rewrite E; apply list_elem_of_here).
      apply elem_of_qualifying in Hel as [Hd Hw].
      specialize (Hbelow d Hd). lra. }
    exists c0. split; [reflexivity|].
    split; [apply candidates_fallback; exact Hq|].
    intros Hsorted d Hd. unfold sortedDescending in Hsorted.
    apply StronglySorted_inv in Hsorted as [_ Hall].
    apply elem_of_cons in Hd as [->|Hd]; [lra|].
    rewrite Forall_forall in Hall. apply Hall. exact Hd.
Qed.

(** C2 (as amended).  [copraChooseCommunity] has no membership cap of its
    own.  When the touched communities index [vcout] and have positive
    accumulated weights, and the threshold is at least their total weight
    divided by [maxMembership] with [0 < maxMembership <= L], at most
    [maxMembership] communities reach the threshold, so the selector stores
    at most [maxMembership] entries in a labelset of [L] slots and writes
    only inside it. *)
Theorem copraChooseCommunity_within_capacity
    (L maxMembership : nat) (u : K) (vcs : list K) (vcout : list V) (WTH : V) :
  inRange vcout vcs ->
  Forall (fun c => (0 < weightOf vcout c)%Q) vcs ->
  0 < maxMembership <= L ->
  (totalWeight vcout vcs <= inject_Z (Z.of_nat maxMembership) * WTH)%Q ->
  exists entries : Labelset,
    copraChooseCommunity L u vcs vcout WTH = Ok (labelsetOf L entries)
    /\ length entries <= maxMembership
    /\ length (labelsetOf L entries) = L.
Proof.
  intros Hin Hpos [Hm HmL] Hth.
  destruct vcs as [|c0 vcs'].
  { exists [(u, 1%Q)]. rewrite copraChooseCommunity_spec by exact Hin.
    cbv zeta. rewrite capacity_check_passes by (cbn [qualifying List.filter length]; lia).
    cbn [candidates qualifying List.filter take].
    rewrite singletonLabelset_labelsetOf by lia.
    split; [reflexivity|]. split; [cbn [length]; lia|].
    apply length_labelsetOf. cbn [length]. lia. }
  set (vcs := c0 :: vcs') in *.
  assert (Hne : vcs <> []) by discriminate.
  pose proof (weights_positive_total vcout vcs Hpos Hne) as Htot.
  assert (Hcount : length (qualifying vcs vcout WTH) <= maxMembership).
  { pose proof (qualifying_count_bound vcs vcout WTH Hpos) as Hb.
    assert (Hs : (fold_right Qplus 0 (map (weightOf vcout) vcs)
                  == totalWeight vcout vcs)%Q).
    { unfold totalWeight. rewrite totalFrom_sum. ring. }
    rewrite Hs in Hb.
    set (n := inject_Z (Z.of_nat (length (qualifying vcs vcout WTH)))) in *.
    set (m := inject_Z (Z.of_nat maxMembership)) in *.
    assert (Hmpos : (0 < m)%Q).
    { subst m. change 0%Q with (inject_Z 0). rewrite <- Zlt_Qlt. lia. }
    assert (Hw : (0 < WTH)%Q).
    { destruct (Qlt_le_dec 0 WTH) as [?|Hle]; [assumption|]. nra. }
    assert (Hnm : (n <= m)%Q).
    { destruct (Qlt_le_dec m n) as [Hlt|?]; [|assumption]. nra. }
    subst n m. rewrite <- Zle_Qle in Hnm. lia. }
  assert (Hcz : ~ (totalWeight vcout (candidates vcs vcout WTH) == 0)%Q).
  { pose proof (weights_positive_total vcout (candidates vcs vcout WTH)
                  (candidates_subset _ _ _ _ Hpos)
                  (candidates_nonempty _ _ _ Hne)). lra. }
  exists (normalized vcout (totalWeight vcout (candidates vcs vcout WTH))
            (candidates vcs vcout WTH)).
  assert (Hlen : length (normalized vcout (totalWeight vcout (candidates vcs vcout WTH))
                           (candidates vcs vcout WTH)) <= maxMembership).
  { unfold normalized. rewrite length_map, length_candidates. lia. }
  split; [apply copraChooseCommunity_Ok; try assumption; lia|].
  split; [exact Hlen|]. apply length_labelsetOf. lia.
Qed.

(** C6 (as amended).  When no community was touched, [copraChooseCommunity]
    returns the singleton labelset [{(u, 1)}] without dividing; scanning a
    vertex with no outgoing edges leaves the touched list empty, so such a
    vertex receives this singleton. *)
Theorem copraChooseCommunity_untouched_is_singleton
    (L : nat) (SELF : bool) (x : Graph) (u : K) (vcom : list Labelset)
    (vcout : list V) (WTH : V) :
  1 <= L ->
  copraChooseCommunity L u [] vcout WTH = Ok (singletonLabelset L u)
  /\ (edges x u = [] ->
      bind (copraScanCommunities SELF ([], vcout) x u vcom)
           (fun s => copraChooseCommunity L u (fst s) (snd s) WTH)
      = Ok (singletonLabelset L u)).
Proof.
  intros HL.
  assert (E : copraChooseCommunity L u [] vcout WTH = Ok (singletonLabelset L u)).
  { destruct L as [|L']; [lia|]. reflexivity. }
  split; [exact E|].
  intros He. unfold copraScanCommunities. rewrite He. cbn [foldM bind fst snd].
  exact E.
Qed.


(** C5, counterexample.  No touched community reaches the threshold 5; the
    selector stores community 0, the head of the touched list, although
    community 1 has the higher accumulated weight. *)
Lemma copraChooseCommunity_fallback_not_highest :
  (forall c, c ∈ [0; 1] -> (weightOf [1; 2]%Q c < 5)%Q)
  /\ copraChooseCommunity COPRA_LABELS 7 [0; 1] [1; 2]%Q 5%Q
     = Ok (labelsetOf COPRA_LABELS [(0, 1%Q)])
  /\ (weightOf [1; 2]%Q 0 < weightOf [1; 2]%Q 1)%Q.
Proof.
  split; [|split].
  - intros c Hc.
    apply elem_of_cons in Hc as [->|Hc]; [reflexivity|].
    apply elem_of_cons in Hc as [->|Hc]; [reflexivity|].
    inversion Hc.
  - vm_compute. reflexivity.
  - reflexivity.
Qed.

Lemma copraChooseCommunity_candidate_set_witness :
  sortedDescending sampleWeights [2; 1]
  /\ exists cs : list K,
       copraChooseCommunity COPRA_LABELS 0 [2; 1] sampleWeights 5%Q
       = Ok (labelsetOf COPRA_LABELS (normalized sampleWeights (totalWeight sampleWeights cs) cs))
       /\ ((exists c, c ∈ [2; 1] /\ (5 <= weightOf sampleWeights c)%Q) ->
           cs = qualifying [2; 1] sampleWeights 5%Q
           /\ forall c, c ∈ cs <-> c ∈ [2; 1] /\ (5 <= weightOf sampleWeights c)%Q)
       /\ ((forall c, c ∈ [2; 1] -> (weightOf sampleWeights c < 5)%Q) ->
           exists c0, [2; 1] !! 0 = Some c0 /\ cs = [c0]
           /\ (sortedDescending sampleWeights [2; 1] ->
               forall d, d ∈ [2; 1] -> (weightOf sampleWeights d <= weightOf sampleWeights c0)%Q)).
Proof.
  split.
  - unfold sortedDescending. repeat constructor. vm_compute. discriminate.
  - apply (copraChooseCommunity_candidate_set COPRA_LABELS 0 [2; 1] sampleWeights 5%Q).
    + unfold inRange. repeat constructor.
    + unfold COPRA_LABELS. lia.
    + vm_compute. lia.
    + discriminate.
    + vm_compute. discriminate.
Defined.

(** C2, counterexample.  With nine touched communities at the threshold the
    selector reaches slot 8 of a labelset of capacity 8: a write past the
    capacity, with no truncation.  With three communities at the threshold
    it stores all three, whatever [maxMembership] the options hold. *)
Lemma copraChooseCommunity_no_truncation :
  copraChooseCommunity COPRA_LABELS 0 [0; 1; 2; 3; 4; 5; 6; 7; 8]
                       (replicate 9 1%Q) 1%Q = OutOfBounds
  /\ copraChooseCommunity COPRA_LABELS 0 [0; 1; 2] [1; 1; 1]%Q 1%Q
     = Ok (labelsetOf COPRA_LABELS [(0, 1 # 3); (1, 1 # 3); (2, 1 # 3)]).
Proof. split; vm_compute; reflexivity. Qed.

Lemma copraChooseCommunity_within_capacity_witness :
  (totalWeight sampleWeights sampleTouched <= inject_Z (Z.of_nat 2) * 2)%Q
  /\ exists entries : Labelset,
       copraChooseCommunity COPRA_LABELS 0 sampleTouched sampleWeights 2%Q
       = Ok (labelsetOf COPRA_LABELS entries)
       /\ length entries <= 2
       /\ length (labelsetOf COPRA_LABELS entries) = COPRA_LABELS.
Proof.
  assert (Hth : (totalWeight sampleWeights sampleTouched <= inject_Z (Z.of_nat 2) * 2)%Q).
  { vm_compute. discriminate. }
  split; [exact Hth|].
  apply (copraChooseCommunity_within_capacity COPRA_LABELS 2 0 sampleTouched sampleWeights 2%Q).
  - unfold inRange. repeat constructor.
  - repeat constructor.
  - unfold COPRA_LABELS. lia.
  - exact Hth.
Defined.

(** C6, counterexample.  Scanning vertex 0 of a graph whose only edge has
    weight zero, with both vertices in community 1, touches community 1 with
    accumulated weight zero; the selector takes it as candidate and divides
    by the zero total instead of returning the singleton [{(0, 1)}]. *)
Lemma copraChooseCommunity_zero_total_divides :
  copraScanCommunities false ([], [0; 0]%Q) zeroWeightGraph 0 bothInCommunityOne
  = Ok ([1], [0; 0]%Q)
  /\ candidates [1] [0; 0]%Q 0%Q = [1]
  /\ (totalWeight [0; 0] [1%nat] == 0)%Q
  /\ copraChooseCommunity COPRA_LABELS 0 [1] [0; 0]%Q 0%Q = DivByZero
  /\ copraChooseCommunity COPRA_LABELS 0 [1] [0; 0]%Q 0%Q
     <> Ok (singletonLabelset COPRA_LABELS 0).
Proof.
  split; [vm_compute; reflexivity|].
  split; [vm_compute; reflexivity|].
  split; [vm_compute; reflexivity|].
  assert (E : copraChooseCommunity COPRA_LABELS 0 [1] [0; 0]%Q 0%Q = DivByZero)
    by (vm_compute; reflexivity).
  split; [exact E|]. rewrite E. discriminate.
Qed.

Lemma copraChooseCommunity_untouched_is_singleton_witness :
  edges starGraph 1 = []
  /\ copraChooseCommunity COPRA_LABELS 1 [] [0; 0; 0]%Q (1 # 8)
     = Ok (singletonLabelset COPRA_LABELS 1)
  /\ (edges starGraph 1 = [] ->
      bind (copraScanCommunities false ([], [0; 0; 0]%Q) starGraph 1
                                 (ownCommunities COPRA_LABELS 3))
           (fun s => copraChooseCommunity COPRA_LABELS 1 (fst s) (snd s) (1 # 8))
      = Ok (singletonLabelset COPRA_LABELS 1)).
Proof.
  split; [reflexivity|].
  apply (copraChooseCommunity_untouched_is_singleton
           COPRA_LABELS false starGraph 1 (ownCommunities COPRA_LABELS 3)
           [0; 0; 0]%Q (1 # 8)).
  unfold COPRA_LABELS. lia.
Defined.

(** * Initialisation *)

(** The vertex weights and the initial labelsets of the path 0 - 1 - 2. *)
Lemma copraInitialize_pathGraph :
  copraVertexWeights [0; 0; 0]%Q pathGraph = Ok [1; 2; 1]%Q
  /\ copraInitialize COPRA_LABELS (replicate 3 []) pathGraph
     = Ok (ownCommunities COPRA_LABELS 3)
  /\ copraBestCommunities (ownCommunities COPRA_LABELS 3) = Ok [0; 1; 2].
Proof. repeat split; vm_compute; reflexivity. Qed.

(** * The scanner *)

(** With the [SELF] switch off, a self-loop contributes nothing. *)
Lemma copraScanCommunity_self_loop (s : Scan) (u : K) (w : V) (vcom : list Labelset) :
  copraScanCommunity false s u u w vcom = Ok s.
Proof. unfold copraScanCommunity. rewrite Nat.eqb_refl. reflexivity. Qed.

(** Apart from the self-loop test, the scanner does not look at the
    neighbour: it walks the labelset of the source [u]. *)
Lemma copraScanCommunity_walks_source (SELF : bool) (s : Scan) (u v : K) (w : V)
    (vcom : list Labelset) :
  u <> v ->
  copraScanCommunity SELF s u v w vcom = bind (rd vcom u) (fun ls => scanLabels w ls s).
Proof.
  intros Hne. unfold copraScanCommunity.
  apply Nat.eqb_neq in Hne. rewrite Hne, andb_false_r. reflexivity.
Qed.

(** One iteration of the walk: a zero coefficient stops it; otherwise
    [w * b] is added to [vcout[c]], and [c] is appended to the touched list
    when [vcout[c]] was zero. *)
Lemma scanLabels_step (w : V) (c : K) (b : V) (ls : Labelset) (vcs : list K)
    (vcout : list V) (x0 : V) :
  vcout !! c = Some x0 ->
  scanLabels w ((c, b) :: ls) (vcs, vcout) =
  if isZero b then Ok (vcs, vcout)
  else scanLabels w ls (if isZero x0 then vcs ++ [c] else vcs,
                        <[c := (x0 + w * b)%Q]> vcout).
Proof.
  intros Hx. cbn [scanLabels fst snd].
  destruct (isZero b); [reflexivity|].
  rewrite (rd_lookup _ _ _ Hx). cbn [bind].
  rewrite wr_lt by (eapply lookup_lt_Some; exact Hx). reflexivity.
Qed.

(** C1 (code defect).  On the edge (0, 1) of weight 1, with every vertex in
    its own community, the scanner credits community 0, the label of the
    source, where iterating the neighbour's labelset credits community 1. *)
Theorem copraScanCommunity_credits_source_community :
  copraScanCommunity false ([], [0; 0; 0]%Q) 0 1 1%Q (ownCommunities COPRA_LABELS 3)
  = Ok ([0], [1; 0; 0]%Q)
  /\ specScanCommunity false ([], [0; 0; 0]%Q) 0 1 1%Q (ownCommunities COPRA_LABELS 3)
     = Ok ([1], [0; 1; 0]%Q).
Proof. split; vm_compute; reflexivity. Qed.

(** * The comparator of the sort *)

Lemma land_2_testbit (n : nat) :
  negb (Nat.land n 2 =? 0) = Nat.testbit n 1.
Proof.
  assert (E : Nat.land n 2 = if Nat.testbit n 1 then 2 else 0).
  { apply Nat.bits_inj. intros k. rewrite Nat.land_spec.
    change 2 with (2 ^ 1) at 1. rewrite Nat.pow2_bits_eqb.
    destruct (Nat.eqb_spec 1 k) as [<-|Hk].
    - rewrite andb_true_r. destruct (Nat.testbit n 1); reflexivity.
    - rewrite andb_false_r. destruct (Nat.testbit n 1).
      + change 2 with (2 ^ 1). rewrite Nat.pow2_bits_eqb.
        symmetry. apply Nat.eqb_neq. exact Hk.
      + symmetry. apply Nat.bits_0. }
  rewrite E. destruct (Nat.testbit n 1); reflexivity.
Qed.

Lemma fl_lookup (STRICT : bool) (vcout : list V) (c d : K) (wc wd : V) :
  vcout !! c = Some wc -> vcout !! d = Some wd ->
  fl STRICT vcout c d
  = Ok (Qltb wc wd
        || (negb STRICT && Qeq_bool wc wd && Nat.testbit (Nat.lxor c d) 1)).
Proof.
  intros Hc Hd. unfold fl.
  rewrite (rd_lookup _ _ _ Hc), (rd_lookup _ _ _ Hd). cbn [bind].
  rewrite land_2_testbit. reflexivity.
Qed.

Lemma Qltb_lt (a b : V) : Qltb a b = true <-> (a < b)%Q.
Proof.
  unfold Qltb. rewrite negb_true_iff. split.
  - intros H. apply Qnot_le_lt. intros Hle. apply Qle_bool_iff in Hle. congruence.
  - intros H. destruct (Qle_bool b a) eqn:E; [|reflexivity].
    apply Qle_bool_iff in E. lra.
Qed.

Lemma Qltb_ge (a b : V) : Qltb a b = false <-> (b <= a)%Q.
Proof.
  unfold Qltb. rewrite negb_false_iff. apply Qle_bool_iff.
Qed.

(** C4, counterexample.  Communities 0 and 1 have equal weight and differ in
    the lowest bit, yet the comparator holds in neither direction;
    communities 0 and 2 agree in the lowest bit, yet the comparator holds.
    On distinct weights the comparator holds for the lighter community
    first, so a sort that places [a] before [b] when [fl a b] holds orders
    the communities by ascending weight. *)
Lemma copraSortScan_tie_break_not_lowest_bit :
  (Nat.testbit (Nat.lxor 0 1) 0 = true
   /\ fl false [1; 1; 1]%Q 0 1 = Ok false
   /\ fl false [1; 1; 1]%Q 1 0 = Ok false)
  /\ (Nat.testbit (Nat.lxor 0 2) 0 = false
      /\ fl false [1; 1; 1]%Q 0 2 = Ok true)
  /\ (fl false [1; 2]%Q 0 1 = Ok true
      /\ fl false [1; 2]%Q 1 0 = Ok false
      /\ copraSortScan insertionSort false [1; 0] [1; 2]%Q = Ok [0; 1]).
Proof. repeat split; vm_compute; reflexivity. Qed.

(** C4 (as amended).  [copraSortScan] hands [touchedCommunities] to the
    sorting routine with the comparator [fl], which compares accumulated
    weights first.  On exactly equal weights with strict mode off, [fl c d]
    holds exactly when bit 1 (mask 2) of [c XOR d] is set; with strict mode
    on it holds in neither direction, so equal-weight communities are
    treated as equal.  On different weights the tie rule plays no part: the
    comparator holds in exactly one direction, the same in both modes. *)
Theorem copraSortScan_comparator
    (sortValues : list K -> (K -> K -> result bool) -> result (list K))
    (STRICT : bool) (vcs : list K) (vcout : list V) (c d : K) (wc wd : V) :
  vcout !! c = Some wc ->
  vcout !! d = Some wd ->
  copraSortScan sortValues STRICT vcs vcout = sortValues vcs (fl STRICT vcout)
  /\ ((wc == wd)%Q ->
      fl false vcout c d = Ok (Nat.testbit (Nat.lxor c d) 1)
      /\ fl true vcout c d = Ok false
      /\ fl true vcout d c = Ok false)
  /\ (~ (wc == wd)%Q ->
      fl STRICT vcout c d = fl true vcout c d
      /\ exists b : bool,
           fl STRICT vcout c d = Ok b /\ fl STRICT vcout d c = Ok (negb b)).
Proof.
  intros Hc Hd. split; [reflexivity|]. split.
  - intros E.
    rewrite !(fl_lookup _ _ _ _ _ _ Hc Hd), (fl_lookup _ _ _ _ _ _ Hd Hc).
    assert (H1 : Qltb wc wd = false) by (apply Qltb_ge; lra).
    assert (H2 : Qltb wd wc = false) by (apply Qltb_ge; lra).
    assert (H3 : Qeq_bool wc wd = true) by (apply Qeq_bool_iff; exact E).
    rewrite H1, H2, H3. cbn [negb andb orb]. auto.
  - intros NE.
    rewrite !(fl_lookup _ _ _ _ _ _ Hc Hd), (fl_lookup _ _ _ _ _ _ Hd Hc).
    assert (H3 : Qeq_bool wc wd = false).
    { destruct (Qeq_bool wc wd) eqn:E; [|reflexivity].
      apply Qeq_bool_iff in E. contradiction. }
    assert (H4 : Qeq_bool wd wc = false).
    { destruct (Qeq_bool wd wc) eqn:E; [|reflexivity].
      apply Qeq_bool_iff in E. symmetry in E. contradiction. }
    rewrite H3, H4, !andb_false_r, !andb_false_l, !orb_false_r.
    split; [reflexivity|].
    exists (Qltb wc wd). split; [reflexivity|]. f_equal.
    destruct (Qlt_le_dec wc wd) as [Hlt|Hge].
    + assert (Qltb wc wd = true) as -> by (apply Qltb_lt; exact Hlt).
      apply Qltb_ge. lra.
    + assert (Qltb wc wd = false) as -> by (apply Qltb_ge; exact Hge).
      apply Qltb_lt. destruct (Qlt_le_dec wd wc) as [?|Hle]; [assumption|].
      exfalso. apply NE. lra.
Qed.

Lemma copraSortScan_comparator_witness :
  [1; 1; 1]%Q !! 0 = Some 1%Q
  /\ [1; 1; 1]%Q !! 2 = Some 1%Q
  /\ copraSortScan insertionSort false [0; 2] [1; 1; 1]%Q
     = insertionSort [0; 2] (fl false [1; 1; 1]%Q)
  /\ ((1 == 1)%Q ->
      fl false [1; 1; 1]%Q 0 2 = Ok (Nat.testbit (Nat.lxor 0 2) 1)
      /\ fl true [1; 1; 1]%Q 0 2 = Ok false
      /\ fl true [1; 1; 1]%Q 2 0 = Ok false)
  /\ (~ (1 == 1)%Q ->
      fl false [1; 1; 1]%Q 0 2 = fl true [1; 1; 1]%Q 0 2
      /\ exists b : bool,
           fl false [1; 1; 1]%Q 0 2 = Ok b /\ fl false [1; 1; 1]%Q 2 0 = Ok (negb b)).
Proof.
  split; [reflexivity|]. split; [reflexivity|].
  apply (copraSortScan_comparator insertionSort false [0; 2] [1; 1; 1]%Q 0 2 1%Q 1%Q);
    reflexivity.
Defined.

(** * The affected-vertex detectors *)

(** Inversion of a successful sequence of steps. *)
Tactic Notation "inv_bind" hyp(H) "as" ident(a) ident(Ha) ident(Hk) :=
  apply bind_Ok in H as (a & Ha & Hk).

Section FoldM.
Context {A B : Type} (f : A -> B -> result A).

(** A relation that every successful step respects holds between the
    initial and the final state of a successful loop. *)
Lemma foldM_preserves (R : A -> A -> Prop) :
  (forall a, R a a) ->
  (forall a b c, R a b -> R b c -> R a c) ->
  (forall a b a', f a b = Ok a' -> R a a') ->
  forall l a a', foldM f l a = Ok a' -> R a a'.
Proof.
  intros Hrefl Htrans Hstep l.
  induction l as [|b l IH]; intros a a' H; cbn [foldM] in H.
  - injection H as <-. apply Hrefl.
  - inv_bind H as a1 H1 H2.
    eapply Htrans; [eapply Hstep|apply IH]; eassumption.
Qed.

(** What the step for [b] establishes, and later steps keep, holds at the
    end for every [b] of the list. *)
Lemma foldM_establishes (R : A -> A -> Prop) (P : B -> A -> Prop) :
  (forall a, R a a) ->
  (forall a b c, R a b -> R b c -> R a c) ->
  (forall a b a', f a b = Ok a' -> R a a') ->
  (forall a b a', f a b = Ok a' -> P b a') ->
  (forall b a a', P b a -> R a a' -> P b a') ->
  forall l a a', foldM f l a = Ok a' -> forall b, b ∈ l -> P b a'.
Proof.
  intros Hrefl Htrans Hstep Hest Hkeep l.
  induction l as [|b0 l IH]; intros a a' H b Hb; cbn [foldM] in H.
  - inversion Hb.
  - inv_bind H as a1 H1 H2. apply elem_of_cons in Hb as [->|Hb].
    + eapply Hkeep; [eapply Hest; eassumption|].
      eapply foldM_preserves; eassumption.
    + eapply IH; eassumption.
Qed.

(** A loop whose steps all leave the state as it is returns that state. *)
Lemma foldM_fixed (a : A) (l : list B) :
  Forall (fun b => f a b = Ok a) l -> foldM f l a = Ok a.
Proof.
  induction 1 as [|b l Hb _ IH]; cbn [foldM]; [reflexivity|].
  rewrite Hb. exact IH.
Qed.
End FoldM.

Lemma flagsIncluded_refl (a : list bool) : flagsIncluded a a.
Proof. intros i H. exact H. Qed.

Lemma flagsIncluded_trans (a b c : list bool) :
  flagsIncluded a b -> flagsIncluded b c -> flagsIncluded a c.
Proof. intros H1 H2 i H. apply H2, H1, H. Qed.

Lemma wr_true (t t' : list bool) (i : nat) :
  wr t i true = Ok t' -> flagsIncluded t t' /\ t' !! i = Some true.
Proof.
  intros H. apply wr_Ok in H as [Hi ->]. split.
  - intros j Hj. destruct (decide (i = j)) as [<-|Hne].
    + apply list_lookup_insert_eq. exact Hi.
    + rewrite list_lookup_insert_ne by exact Hne. exact Hj.
  - apply list_lookup_insert_eq. exact Hi.
Qed.

Lemma marksIncluded_refl (fs : Flags) : marksIncluded fs fs.
Proof. repeat split; apply flagsIncluded_refl. Qed.

Lemma marksIncluded_trans (a b c : Flags) :
  marksIncluded a b -> marksIncluded b c -> marksIncluded a c.
Proof.
  intros (H1 & H2 & H3) (H4 & H5 & H6).
  repeat split; eapply flagsIncluded_trans; eassumption.
Qed.

Lemma markChanged_Ok (fs fs' : Flags) (u c : K) :
  markChanged fs u c = Ok fs' ->
  marksIncluded fs fs'
  /\ vertices fs' !! u = Some true
  /\ neighbors fs' !! u = Some true
  /\ communities fs' !! c = Some true.
Proof.
  unfold markChanged. intros H.
  inv_bind H as vs Hv H. inv_bind H as ns Hn H. inv_bind H as cs Hc H.
  injection H as <-.
  apply wr_true in Hv as [? ?], Hn as [? ?], Hc as [? ?].
  cbn [vertices neighbors communities]. repeat split; assumption.
Qed.

(** ** The deletion loop *)

Lemma screenDeletion_Ok (vcom : list Labelset) (fs fs' : Flags) (u v : K) :
  screenDeletion vcom fs (u, v) = Ok fs' ->
  exists cu cv,
    primary vcom u = Ok cu /\ primary vcom v = Ok cv
    /\ (cu <> cv -> fs' = fs)
    /\ (cu = cv -> markChanged fs u cv = Ok fs').
Proof.
  unfold screenDeletion. intros H.
  inv_bind H as cu Hcu H. inv_bind H as cv Hcv H. exists cu, cv.
  split; [assumption|]. split; [assumption|].
  destruct (Nat.eqb_spec cu cv) as [E|NE]; cbn [negb] in H.
  - split; [contradiction|]. intros _. exact H.
  - injection H as <-. split; [reflexivity|]. contradiction.
Qed.

Lemma screenDeletion_included (vcom : list Labelset) (fs fs' : Flags) (d : Deletion) :
  screenDeletion vcom fs d = Ok fs' -> marksIncluded fs fs'.
Proof.
  destruct d as [u v]. intros H.
  apply screenDeletion_Ok in H as (cu & cv & _ & _ & Hne & Heq).
  destruct (decide (cu = cv)) as [E|NE].
  - apply Heq, markChanged_Ok in E. apply E.
  - rewrite (Hne NE). apply marksIncluded_refl.
Qed.

Lemma screenDeletion_marks (vcom : list Labelset) (fs fs' : Flags) (d : Deletion) :
  screenDeletion vcom fs d = Ok fs' -> deletionMarked vcom d fs'.
Proof.
  destruct d as [u v]. intros H c Hu Hv. cbn [fst snd] in *.
  apply screenDeletion_Ok in H as (cu & cv & Hcu & Hcv & _ & Heq).
  assert (cu = c) as -> by congruence.
  assert (cv = c) as -> by congruence.
  specialize (Heq eq_refl). apply markChanged_Ok in Heq. apply Heq.
Qed.

Lemma deletionMarked_included (vcom : list Labelset) (d : Deletion) (fs fs' : Flags) :
  deletionMarked vcom d fs -> marksIncluded fs fs' -> deletionMarked vcom d fs'.
Proof.
  intros Hm (H1 & H2 & H3) c Hu Hv.
  destruct (Hm c Hu Hv) as (M1 & M2 & M3). auto.
Qed.

Lemma screenDeletions_marks (vcom : list Labelset) (dels : list Deletion)
    (fs fs' : Flags) :
  screenDeletions vcom dels fs = Ok fs' ->
  forall d, d ∈ dels -> deletionMarked vcom d fs'.
Proof.
  intros H.
  apply (foldM_establishes (screenDeletion vcom) marksIncluded (deletionMarked vcom)
           marksIncluded_refl marksIncluded_trans
           (fun a b a' => screenDeletion_included vcom a a' b)
           (fun a b a' => screenDeletion_marks vcom a a' b)
           (deletionMarked_included vcom) _ _ _ H).
Qed.


(** ** The insertion loop *)

Lemma screenInsertions_included (L : nat) (vcom : list Labelset) (vtot : list V)
    (B : V) (fuel : nat) :
  forall (ins : list Insertion) (s : Scan) (fs fs' : Flags),
  screenInsertions fuel L vcom vtot B ins s fs = Ok fs' -> marksIncluded fs fs'.
Proof.
  induction fuel as [|fuel IH]; intros ins s fs fs' H.
  - destruct ins as [|[[u v] w] ins]; cbn in H.
    + injection H as <-. apply marksIncluded_refl.
    + discriminate.
  - destruct ins as [|[[u v] w] ins]; cbn [screenInsertions] in H.
    + injection H as <-. apply marksIncluded_refl.
    + inv_bind H as s0 Hclear H. inv_bind H as run Hrun H.
      destruct run as [s1 rest].
      inv_bind H as t Ht H. inv_bind H as ls Hls H.
      inv_bind H as cu Hcu H. inv_bind H as e He H.
      destruct (fst e =? cu).
      * eapply IH. exact H.
      * inv_bind H as fs1 Hmark H. apply markChanged_Ok in Hmark as [Hinc _].
        eapply marksIncluded_trans; [exact Hinc|]. eapply IH. exact H.
Qed.

(** ** The final pass *)

Lemma markNeighbors_Ok (x : Graph) (u : K) (vs vs' : list bool) :
  markNeighbors x u vs = Ok vs' ->
  flagsIncluded vs vs'
  /\ forall n, n ∈ map fst (edges x u) -> vs' !! n = Some true.
Proof.
  unfold markNeighbors. intros H.
  assert (Hstep : forall (a : list bool) (b : K * V) (a' : list bool),
             wr a (fst b) true = Ok a' ->
             flagsIncluded a a' /\ a' !! fst b = Some true).
  { intros a b a'. apply wr_true. }
  split.
  - apply (foldM_preserves _ flagsIncluded flagsIncluded_refl flagsIncluded_trans
             (fun a b a' Hw => proj1 (Hstep a b a' Hw)) _ _ _ H).
  - intros n Hn. apply list_elem_of_fmap in Hn as (e & -> & He).
    apply (foldM_establishes _ flagsIncluded
             (fun (e : K * V) (t : list bool) => t !! fst e = Some true)
             flagsIncluded_refl flagsIncluded_trans
             (fun a b a' Hw => proj1 (Hstep a b a' Hw))
             (fun a b a' Hw => proj2 (Hstep a b a' Hw))
             (fun b a a' Hb Hinc => Hinc _ Hb) _ _ _ H e He).
Qed.

Lemma propagate_included (x : Graph) (vcom : list Labelset) (ns cs : list bool)
    (vs vs' : list bool) (u : K) :
  propagate x vcom ns cs vs u = Ok vs' -> flagsIncluded vs vs'.
Proof.
  unfold propagate. intros H.
  inv_bind H as cu Hcu H. inv_bind H as nu Hnu H.
  inv_bind H as vs1 Hvs1 H. inv_bind H as ccu Hccu H.
  assert (Hinc : flagsIncluded vs vs1).
  { destruct nu.
    - apply markNeighbors_Ok in Hvs1. apply Hvs1.
    - injection Hvs1 as <-. apply flagsIncluded_refl. }
  destruct ccu.
  - apply wr_true in H as [Hinc' _].
    eapply flagsIncluded_trans; eassumption.
  - injection H as <-. exact Hinc.
Qed.

Lemma propagate_marks (x : Graph) (vcom : list Labelset) (ns cs : list bool)
    (vs vs' : list bool) (u : K) :
  propagate x vcom ns cs vs u = Ok vs' -> propagated x vcom ns cs u vs'.
Proof.
  unfold propagate. intros H.
  inv_bind H as cu Hcu H. inv_bind H as nu Hnu H.
  inv_bind H as vs1 Hvs1 H. inv_bind H as ccu Hccu H.
  apply rd_Ok in Hnu, Hccu.
  assert (Hinc : flagsIncluded vs1 vs').
  { destruct ccu.
    - apply wr_true in H. apply H.
    - injection H as <-. apply flagsIncluded_refl. }
  split.
  - intros Hn n Hel. apply Hinc.
    assert (nu = true) as -> by congruence.
    apply markNeighbors_Ok in Hvs1. apply Hvs1. exact Hel.
  - intros c Hc Hcs.
    assert (cu = c) as -> by congruence.
    assert (ccu = true) as -> by congruence.
    apply wr_true in H. apply H.
Qed.

Lemma propagateAll_Ok (x : Graph) (vcom : list Labelset) (fs : Flags)
    (flags : list bool) :
  propagateAll x vcom fs = Ok flags ->
  flagsIncluded (vertices fs) flags
  /\ forall u, u ∈ vertexKeys x ->
       propagated x vcom (neighbors fs) (communities fs) u flags.
Proof.
  unfold propagateAll. intros H.
  assert (Hkeep : forall (b : K) (a a' : list bool),
             propagated x vcom (neighbors fs) (communities fs) b a ->
             flagsIncluded a a' ->
             propagated x vcom (neighbors fs) (communities fs) b a').
  { intros b a a' [P1 P2] Hinc. split.
    - intros Hn n Hel. apply Hinc, P1; assumption.
    - intros c Hc Hcs. apply Hinc. eapply P2; eassumption. }
  split.
  - apply (foldM_preserves _ flagsIncluded flagsIncluded_refl flagsIncluded_trans
             (fun a b a' => propagate_included x vcom _ _ a a' b) _ _ _ H).
  - apply (foldM_establishes _ flagsIncluded
             (propagated x vcom (neighbors fs) (communities fs))
             flagsIncluded_refl flagsIncluded_trans
             (fun a b a' => propagate_included x vcom _ _ a a' b)
             (fun a b a' => propagate_marks x vcom _ _ a a' b)
             Hkeep _ _ _ H).
Qed.

(** ** The fuel of the insertion loop is enough *)

Lemma bind_terminates {A B : Type} (m : result A) (f : A -> result B) :
  terminates m -> (forall a, m = Ok a -> terminates (f a)) -> terminates (bind m f).
Proof.
  unfold terminates. intros Hm Hf. destruct m; cbn [bind]; try discriminate.
  - apply Hf. reflexivity.
  - contradiction.
Qed.

Lemma rd_terminates {A : Type} (t : list A) (i : nat) : terminates (rd t i).
Proof. unfold terminates, rd. destruct (t !! i); discriminate. Qed.

Lemma wr_terminates {A : Type} (t : list A) (i : nat) (a : A) : terminates (wr t i a).
Proof. unfold terminates, wr. destruct (decide (i < length t)); discriminate. Qed.

Lemma Ok_terminates {A : Type} (a : A) : terminates (Ok a).
Proof. discriminate. Qed.

Lemma foldM_terminates {A B : Type} (f : A -> B -> result A) (l : list B) :
  (forall a b, terminates (f a b)) -> forall a, terminates (foldM f l a).
Proof.
  intros Hf. induction l as [|b l IH]; intros a; cbn [foldM].
  - apply Ok_terminates.
  - apply bind_terminates; [apply Hf|]. intros a' _. apply IH.
Qed.

Ltac terminates_step :=
  first [ apply Ok_terminates
        | apply rd_terminates
        | apply wr_terminates
        | discriminate
        | apply bind_terminates; [|intros ? _] ].

Lemma primary_terminates (vcom : list Labelset) (u : K) : terminates (primary vcom u).
Proof. unfold primary. repeat terminates_step. Qed.

Lemma markChanged_terminates (fs : Flags) (u c : K) : terminates (markChanged fs u c).
Proof. unfold markChanged. repeat terminates_step. Qed.

Lemma scanLabels_terminates (w : V) (ls : Labelset) :
  forall s, terminates (scanLabels w ls s).
Proof.
  induction ls as [|[c b] ls IH]; intros s; cbn [scanLabels].
  - apply Ok_terminates.
  - destruct (isZero b); [apply Ok_terminates|].
    repeat terminates_step. apply IH.
Qed.

Lemma copraScanCommunity_terminates (SELF : bool) (s : Scan) (u v : K) (w : V)
    (vcom : list Labelset) :
  terminates (copraScanCommunity SELF s u v w vcom).
Proof.
  unfold copraScanCommunity. destruct (negb SELF && (u =? v)).
  - apply Ok_terminates.
  - apply bind_terminates; [apply rd_terminates|]. intros ls _.
    apply scanLabels_terminates.
Qed.

Lemma copraClearScan_terminates (s : Scan) : terminates (copraClearScan s).
Proof.
  unfold copraClearScan. apply bind_terminates.
  - apply foldM_terminates. intros a b. apply wr_terminates.
  - intros a _. apply Ok_terminates.
Qed.

Lemma chooseAbove_terminates (vcs : list K) (vcout : list V) (WTH : V) :
  forall st, terminates (chooseAbove vcs vcout WTH st).
Proof.
  induction vcs as [|c vcs IH]; intros st; cbn [chooseAbove].
  - apply Ok_terminates.
  - apply bind_terminates; [apply rd_terminates|]. intros x _.
    destruct (Qltb x WTH); [apply IH|].
    apply bind_terminates; [apply wr_terminates|]. intros labs _. apply IH.
Qed.

Lemma chooseFallback_terminates (vcs : list K) (vcout : list V) (st : Choice) :
  terminates (chooseFallback vcs vcout st).
Proof.
  unfold chooseFallback. destruct (cn st); destruct vcs; repeat terminates_step.
Qed.

Lemma normalizeFrom_terminates (w : V) (k : nat) :
  forall i labs, terminates (normalizeFrom k i w labs).
Proof.
  induction k as [|k IH]; intros i labs; cbn [normalizeFrom].
  - apply Ok_terminates.
  - apply bind_terminates; [|intros labs' _; apply IH].
    unfold divideSlot. apply bind_terminates; [apply rd_terminates|].
    intros e _. destruct (isZero w); [discriminate|apply wr_terminates].
Qed.

Lemma copraChooseCommunity_terminates (L : nat) (u : K) (vcs : list K)
    (vcout : list V) (WTH : V) :
  terminates (copraChooseCommunity L u vcs vcout WTH).
Proof.
  unfold copraChooseCommunity. cbv zeta.
  apply bind_terminates; [apply chooseAbove_terminates|]. intros st1 _.
  apply bind_terminates; [apply chooseFallback_terminates|]. intros st2 _.
  apply bind_terminates; [apply normalizeFrom_terminates|]. intros labs _.
  destruct (cn st2 =? 0); [apply wr_terminates|apply Ok_terminates].
Qed.

Lemma scanRun_terminates (u : K) (vcom : list Labelset) (ins : list Insertion) :
  forall s, terminates (scanRun u ins s vcom).
Proof.
  induction ins as [|[[u' v] w] ins IH]; intros s; cbn [scanRun].
  - apply Ok_terminates.
  - destruct (u' =? u); [|apply Ok_terminates].
    apply bind_terminates; [apply primary_terminates|]. intros cu _.
    apply bind_terminates; [apply primary_terminates|]. intros cv _.
    destruct (cu =? cv); [apply IH|].
    apply bind_terminates; [apply copraScanCommunity_terminates|].
    intros s' _. apply IH.
Qed.

(** The inner loop stops at a suffix of the batch, and consumes the
    insertion it starts at. *)
Lemma scanRun_rest (u : K) (vcom : list Labelset) (ins : list Insertion) :
  forall s s' rest,
  scanRun u ins s vcom = Ok (s', rest) ->
  length rest <= length ins
  /\ (forall v w tl, ins = (u, v, w) :: tl -> length rest <= length tl).
Proof.
  induction ins as [|[[u' v] w] ins IH]; intros s s' rest H; cbn [scanRun] in H.
  - injection H as <- <-. split; [reflexivity|]. intros; discriminate.
  - destruct (Nat.eqb_spec u' u) as [->|Hne].
    + inv_bind H as cu Hcu H. inv_bind H as cv Hcv H.
      assert (Hrec : length rest <= length ins).
      { destruct (cu =? cv).
        - apply IH in H. apply H.
        - inv_bind H as s1 Hs1 H. apply IH in H. apply H. }
      split; [cbn [length]; lia|].
      intros v0 w0 tl [= _ _ <-]. exact Hrec.
    + injection H as <- <-. split; [reflexivity|].
      intros v0 w0 tl [= E _ _]. contradiction.
Qed.

Lemma screenInsertions_terminates (L : nat) (vcom : list Labelset) (vtot : list V)
    (B : V) (fuel : nat) :
  forall (ins : list Insertion) (s : Scan) (fs : Flags),
  length ins <= fuel ->
  terminates (screenInsertions fuel L vcom vtot B ins s fs).
Proof.
  induction fuel as [|fuel IH]; intros ins s fs Hlen.
  - destruct ins; [apply Ok_terminates|cbn [length] in Hlen; lia].
  - destruct ins as [|[[u v] w] ins]; [apply Ok_terminates|].
    cbn [screenInsertions].
    apply bind_terminates; [apply copraClearScan_terminates|]. intros s0 _.
    apply bind_terminates; [apply scanRun_terminates|]. intros [s1 rest] Hrun.
    apply scanRun_rest in Hrun as [_ Hrest].
    specialize (Hrest v w ins eq_refl). cbn [length] in Hlen.
    apply bind_terminates; [apply rd_terminates|]. intros t _.
    apply bind_terminates; [apply copraChooseCommunity_terminates|]. intros ls _.
    apply bind_terminates; [apply primary_terminates|]. intros cu _.
    apply bind_terminates; [apply rd_terminates|]. intros e _.
    destruct (fst e =? cu); [apply IH; lia|].
    apply bind_terminates; [apply markChanged_terminates|]. intros fs' _.
    apply IH. lia.
Qed.

(** Delta-screening never runs out of fuel: every insertion run is
    processed. *)
Lemma copraAffectedVerticesDeltaScreening_terminates (L : nat) (x : Graph)
    (deletions : list Deletion) (insertions : list Insertion)
    (vcom : list Labelset) (vtot : list V) (B : V) :
  terminates (copraAffectedVerticesDeltaScreening L x deletions insertions vcom vtot B).
Proof.
  unfold copraAffectedVerticesDeltaScreening. cbv zeta.
  apply bind_terminates.
  { apply foldM_terminates. intros fs [u v]. unfold screenDeletion.
    apply bind_terminates; [apply primary_terminates|]. intros cu _.
    apply bind_terminates; [apply primary_terminates|]. intros cv _.
    destruct (negb (cu =? cv)); [apply Ok_terminates|apply markChanged_terminates]. }
  intros fs1 _. apply bind_terminates.
  { apply screenInsertions_terminates. reflexivity. }
  intros fs2 _. apply foldM_terminates. intros vs u. unfold propagate.
  apply bind_terminates; [apply primary_terminates|]. intros cu _.
  apply bind_terminates; [apply rd_terminates|]. intros nu _.
  apply bind_terminates.
  { destruct nu; [|apply Ok_terminates].
    apply foldM_terminates. intros t e. apply wr_terminates. }
  intros vs1 _.
  apply bind_terminates; [apply rd_terminates|]. intros ccu _.
  destruct ccu; [apply wr_terminates|apply Ok_terminates].
Qed.

(** * Claims about the detectors *)

Lemma lookup_unmarked (n i : nat) (b : bool) :
  replicate n false !! i = Some b -> b = false.
Proof. intros H. apply lookup_replicate in H as [-> _]. reflexivity. Qed.

(** With nothing marked as neighbour-touched or community-touched, the
    final pass changes no flag. *)
Lemma propagate_unmarked (x : Graph) (vcom : list Labelset) (n : nat)
    (vs vs' : list bool) (u : K) :
  propagate x vcom (replicate n false) (replicate n false) vs u = Ok vs' ->
  vs' = vs.
Proof.
  unfold propagate. intros H.
  inv_bind H as cu Hcu H. inv_bind H as nu Hnu H.
  inv_bind H as vs1 Hvs1 H. inv_bind H as ccu Hccu H.
  apply rd_Ok, lookup_unmarked in Hnu, Hccu. subst nu ccu.
  injection Hvs1 as <-. injection H as <-. reflexivity.
Qed.

Lemma propagate_wellFormed (x : Graph) (vcom : list Labelset) (vs : list bool) (u c : K) :
  u < span x -> primary vcom u = Ok c -> c < span x ->
  propagate x vcom (replicate (span x) false) (replicate (span x) false) vs u = Ok vs.
Proof.
  intros Hu Hc Hcs. unfold propagate. rewrite Hc. cbn [bind].
  rewrite (rd_lookup _ u false) by (apply lookup_replicate_2; exact Hu). cbn [bind].
  rewrite (rd_lookup _ c false) by (apply lookup_replicate_2; exact Hcs).
  reflexivity.
Qed.

(** C10.  With empty deletion and insertion batches both detectors return
    the flag vector of length [span x] whose entries are all false: the
    frontier detector on every input, delta-screening whenever it returns at
    all, and it does return when the vertices of the graph and their primary
    communities lie below the span. *)
Theorem affected_vertices_empty_batch
    (L : nat) (x : Graph) (vcom : list Labelset) (vtot : list V) (B : V) :
  length (replicate (span x) false) = span x
  /\ Forall (fun b => b = false) (replicate (span x) false)
  /\ copraAffectedVerticesFrontier x [] [] vcom = Ok (replicate (span x) false)
  /\ (forall flags,
        copraAffectedVerticesDeltaScreening L x [] [] vcom vtot B = Ok flags ->
        flags = replicate (span x) false)
  /\ (wellFormed x vcom ->
      copraAffectedVerticesDeltaScreening L x [] [] vcom vtot B
      = Ok (replicate (span x) false)).
Proof.
  split; [apply length_replicate|].
  split; [apply Forall_replicate; reflexivity|].
  split; [reflexivity|].
  unfold copraAffectedVerticesDeltaScreening, propagateAll.
  cbn [screenDeletions foldM length screenInsertions bind vertices neighbors communities].
  split.
  - intros flags H. symmetry.
    apply (foldM_preserves _ eq (@eq_refl _) (@eq_trans _)
             (fun a b a' Hp => eq_sym (propagate_unmarked x vcom _ a a' b Hp)) _ _ _ H).
  - intros Hwf. apply foldM_fixed.
    eapply Forall_impl; [exact Hwf|].
    intros u (Hu & c & Hc & Hcs). cbv beta.
    eapply propagate_wellFormed; eassumption.
Qed.

Lemma affected_vertices_empty_batch_witness :
  wellFormed pathGraph (ownCommunities COPRA_LABELS 3)
  /\ length (replicate 3 false) = 3
  /\ Forall (fun b => b = false) (replicate 3 false)
  /\ copraAffectedVerticesFrontier pathGraph [] [] (ownCommunities COPRA_LABELS 3)
     = Ok (replicate 3 false)
  /\ (forall flags,
        copraAffectedVerticesDeltaScreening COPRA_LABELS pathGraph [] []
          (ownCommunities COPRA_LABELS 3) [1; 2; 1]%Q (1 # 10) = Ok flags ->
        flags = replicate 3 false)
  /\ (wellFormed pathGraph (ownCommunities COPRA_LABELS 3) ->
      copraAffectedVerticesDeltaScreening COPRA_LABELS pathGraph [] []
        (ownCommunities COPRA_LABELS 3) [1; 2; 1]%Q (1 # 10)
      = Ok (replicate 3 false)).
Proof.
  split.
  - unfold wellFormed. cbn [vertexKeys pathGraph span].
    repeat constructor; eexists; (split; [reflexivity|cbn; lia]).
  - apply (affected_vertices_empty_batch COPRA_LABELS pathGraph
             (ownCommunities COPRA_LABELS 3) [1; 2; 1]%Q (1 # 10)).
Defined.



(** C3 (code defect).  After the edge 0 - 2 of weight 5 has been inserted
    between vertices of different communities, the frontier detector flags
    both endpoints while delta-screening flags no vertex: its scan credits
    each source's own community, so the selector returns the community the
    source already has. *)
Theorem frontier_flags_missed_by_delta_screening :
  copraVertexWeights [0; 0; 0]%Q triangleGraph = Ok [6; 2; 6]%Q
  /\ copraAffectedVerticesFrontier triangleGraph [] insertedEdge
       (ownCommunities COPRA_LABELS 3)
     = Ok [true; false; true]
  /\ copraAffectedVerticesDeltaScreening COPRA_LABELS triangleGraph [] insertedEdge
       (ownCommunities COPRA_LABELS 3) [6; 2; 6]%Q (1 # 10)
     = Ok [false; false; false].
Proof. repeat split; vm_compute; reflexivity. Qed.

(** C8 (code defect).  For the insertion batch [(0, 2, w=5)] with vertex 0
    in community 0, vertex 2 in community 2, B = 1/10 and vertex weight 5,
    the scan credits the weight 5 to community 0 instead of community 2, the
    selector returns community 0, which vertex 0 already has, and
    delta-screening flags no vertex. *)
Theorem delta_screening_insertion_example :
  copraScanCommunity false ([], [0; 0; 0]%Q) 0 2 5%Q (ownCommunities COPRA_LABELS 3)
  = Ok ([0], [5; 0; 0]%Q)
  /\ copraChooseCommunity COPRA_LABELS 0 [0] [5; 0; 0]%Q ((1 # 10) * 5)%Q
     = Ok (labelsetOf COPRA_LABELS [(0, (5 / (0 + 5))%Q)])
  /\ copraAffectedVerticesDeltaScreening COPRA_LABELS starGraph [] [(0, 2, 5%Q)]
       (ownCommunities COPRA_LABELS 3) [5; 0; 5]%Q (1 # 10)
     = Ok [false; false; false].
Proof. repeat split; vm_compute; reflexivity. Qed.

(** ** Delta-screening returns on well-formed deletion batches *)

Lemma foldM_total {A B : Type} (f : A -> B -> result A)
    (I : A -> Prop) (P : B -> Prop) :
  (forall a b, I a -> P b -> exists a', f a b = Ok a' /\ I a') ->
  forall l a, I a -> Forall P l -> exists a', foldM f l a = Ok a' /\ I a'.
Proof.
  intros Hstep l. induction l as [|b l IH]; intros a Ha Hl; cbn [foldM].
  - eauto.
  - apply Forall_cons in Hl as [Hb Hl].
    destruct (Hstep a b Ha Hb) as (a1 & -> & Ha1). cbn [bind].
    apply IH; assumption.
Qed.

Lemma markChanged_total (n : nat) (fs : Flags) (u c : K) :
  sized n fs -> u < n -> c < n ->
  exists fs', markChanged fs u c = Ok fs' /\ sized n fs'.
Proof.
  intros (H1 & H2 & H3) Hu Hc. unfold markChanged.
  rewrite !wr_lt by lia. cbn [bind]. eexists. split; [reflexivity|].
  unfold sized. cbn [vertices neighbors communities].
  rewrite !length_insert. auto.
Qed.

Lemma screenDeletions_total (x : Graph) (vcom : list Labelset)
    (dels : list Deletion) (fs : Flags) :
  deletionsInRange x vcom dels -> sized (span x) fs ->
  exists fs', screenDeletions vcom dels fs = Ok fs' /\ sized (span x) fs'.
Proof.
  intros Hd Hs. unfold screenDeletions.
  apply (foldM_total _ (sized (span x))
           (fun d : K * K =>
              fst d < span x
              /\ exists cu cv, primary vcom (fst d) = Ok cu
                               /\ primary vcom (snd d) = Ok cv
                               /\ cv < span x)); [|exact Hs|exact Hd].
  intros a [u v] Ha (Hu & cu & cv & Hcu & Hcv & Hlt). cbn [fst snd] in *.
  unfold screenDeletion. rewrite Hcu, Hcv. cbn [bind].
  destruct (cu =? cv); cbn [negb]; [|eauto].
  apply markChanged_total; assumption.
Qed.

Lemma propagate_total (x : Graph) (vcom : list Labelset) (ns cs vs : list bool) (u c : K) :
  length ns = span x -> length cs = span x -> length vs = span x ->
  u < span x -> primary vcom u = Ok c -> c < span x ->
  Forall (fun e : K * V => fst e < span x) (edges x u) ->
  exists vs', propagate x vcom ns cs vs u = Ok vs' /\ length vs' = span x.
Proof.
  intros Hns Hcs Hvs Hu Hc Hlt He. unfold propagate. rewrite Hc. cbn [bind].
  destruct (lookup_lt_is_Some_2 ns u) as [nu Hnu]; [lia|].
  rewrite (rd_lookup _ _ _ Hnu). cbn [bind].
  assert (Hn : exists vs1, (if nu then markNeighbors x u vs else Ok vs) = Ok vs1
                           /\ length vs1 = span x).
  { destruct nu; [|eauto]. unfold markNeighbors.
    apply (foldM_total _ (fun t : list bool => length t = span x)
             (fun e : K * V => fst e < span x)); [|exact Hvs|exact He].
    intros a e Ha Hlt'. rewrite wr_lt by lia. eexists. split; [reflexivity|].
    rewrite length_insert. exact Ha. }
  destruct Hn as (vs1 & -> & Hvs1). cbn [bind].
  destruct (lookup_lt_is_Some_2 cs c) as [ccu Hccu]; [lia|].
  rewrite (rd_lookup _ _ _ Hccu). cbn [bind].
  destruct ccu; [|eauto].
  rewrite wr_lt by lia. eexists. split; [reflexivity|].
  rewrite length_insert. exact Hvs1.
Qed.

(** X24.  On a well-formed graph and community table, a batch of in-range
    deletions with no insertions makes delta-screening return a flag vector
    of length [span x]: no access leaves its table. *)
Lemma delta_screening_deletions_return (L : nat) (x : Graph)
    (deletions : list Deletion) (vcom : list Labelset) (vtot : list V) (B : V) :
  wellFormed x vcom -> edgesInRange x -> deletionsInRange x vcom deletions ->
  exists flags,
    copraAffectedVerticesDeltaScreening L x deletions [] vcom vtot B = Ok flags
    /\ length flags = span x.
Proof.
  intros Hwf He Hd. unfold copraAffectedVerticesDeltaScreening. cbv zeta.
  destruct (screenDeletions_total x vcom deletions
              {| vertices := replicate (span x) false;
                 neighbors := replicate (span x) false;
                 communities := replicate (span x) false |} Hd)
    as (fs1 & -> & (S1 & S2 & S3)).
  { unfold sized. cbn [vertices neighbors communities].
    rewrite !length_replicate. auto. }
  cbn [bind length screenInsertions]. unfold propagateAll.
  apply (foldM_total _ (fun t : list bool => length t = span x)
           (fun u => (u < span x /\ exists c, primary vcom u = Ok c /\ c < span x)
                     /\ Forall (fun e : K * V => fst e < span x) (edges x u)));
    [|exact S1|].
  - intros vs u Hvs [(Hu & c & Hc & Hlt) Hedges].
    eapply propagate_total; eassumption.
  - unfold wellFormed, edgesInRange in *.
    rewrite Forall_forall in Hwf, He. apply Forall_forall.
    intros u Hin. split; [apply Hwf|apply He]; exact Hin.
Qed.


(** * Further properties of the code *)

(** ** Vertex weights and initialisation *)

(** A loop that stores [g u] at index [u] for every key. *)
Lemma foldM_write_each {A : Type} (f : list A -> nat -> result (list A))
    (g : nat -> A) :
  (forall t u, u < length t -> f t u = Ok (<[u := g u]> t)) ->
  forall (keys : list nat) (t : list A),
  Forall (fun u => u < length t) keys ->
  exists t', foldM f keys t = Ok t'
    /\ length t' = length t
    /\ (forall u, u ∈ keys -> t' !! u = Some (g u))
    /\ (forall i, i ∉ keys -> t' !! i = t !! i).
Proof.
  intros Hf keys. induction keys as [|u ks IH]; intros t Hk.
  - exists t. cbn [foldM]. repeat split; auto. intros u Hu. inversion Hu.
  - apply Forall_cons in Hk as [Hu Hk]. cbn [foldM].
    rewrite (Hf t u Hu). cbn [bind].
    destruct (IH (<[u := g u]> t)) as (t' & Ht' & Hlen & Hin & Hout).
    { rewrite length_insert. exact Hk. }
    exists t'. split; [exact Ht'|]. rewrite length_insert in Hlen.
    split; [exact Hlen|]. split.
    + intros k Hel. destruct (decide (k ∈ ks)) as [Hks|Hks]; [apply Hin, Hks|].
      apply elem_of_cons in Hel as [->|Hel]; [|contradiction].
      rewrite (Hout u Hks). apply list_lookup_insert_eq. exact Hu.
    + intros i Hni. apply not_elem_of_cons in Hni as [Hne Hni].
      rewrite (Hout i Hni). apply list_lookup_insert_ne. congruence.
Qed.

(** The inner loop [vtot[u] += w] over the edges of [u]. *)
Lemma add_edge_weights (u : K) (es : list (K * V)) :
  forall (t : list V) (x0 : V),
  t !! u = Some x0 ->
  foldM (fun t' e => do s <- rd t' u; wr t' u (s + snd e)%Q) es t
  = Ok (<[u := fold_left Qplus (map snd es) x0]> t).
Proof.
  induction es as [|e es IH]; intros t x0 Hx; cbn [foldM map fold_left].
  - rewrite list_insert_id by exact Hx. reflexivity.
  - rewrite (rd_lookup _ _ _ Hx). cbn [bind].
    rewrite wr_lt by (eapply lookup_lt_Some; exact Hx). cbn [bind].
    rewrite (IH _ (x0 + snd e)%Q).
    + rewrite list_insert_insert_eq. reflexivity.
    + apply list_lookup_insert_eq. eapply lookup_lt_Some; exact Hx.
Qed.

(** X1.  When every vertex key indexes [vtot], [copraVertexWeights] returns
    a table of the same length that holds, for every vertex of the graph,
    the total weight of its outgoing edges (whatever the entry held before)
    and leaves the entries of all other indices as they were. *)
Theorem copraVertexWeights_totals (x : Graph) (vtot : list V) :
  Forall (fun u => u < length vtot) (vertexKeys x) ->
  exists vtot',
    copraVertexWeights vtot x = Ok vtot'
    /\ length vtot' = length vtot
    /\ (forall u, u ∈ vertexKeys x -> vtot' !! u = Some (edgeWeight x u))
    /\ (forall i, i ∉ vertexKeys x -> vtot' !! i = vtot !! i).
Proof.
  intros Hk. unfold copraVertexWeights.
  apply (foldM_write_each _ (edgeWeight x)); [|exact Hk].
  intros t u Hu. rewrite wr_lt by exact Hu. cbn [bind].
  rewrite (add_edge_weights u (edges x u) _ 0%Q)
    by (apply list_lookup_insert_eq; exact Hu).
  rewrite list_insert_insert_eq. reflexivity.
Qed.

Lemma copraVertexWeights_totals_witness :
  Forall (fun u => u < length [7; 7; 7]%Q) (vertexKeys triangleGraph)
  /\ exists vtot',
       copraVertexWeights [7; 7; 7]%Q triangleGraph = Ok vtot'
       /\ length vtot' = length [7; 7; 7]%Q
       /\ (forall u, u ∈ vertexKeys triangleGraph ->
                     vtot' !! u = Some (edgeWeight triangleGraph u))
       /\ (forall i, i ∉ vertexKeys triangleGraph -> vtot' !! i = [7; 7; 7]%Q !! i).
Proof.
  assert (H : Forall (fun u => u < length [7; 7; 7]%Q) (vertexKeys triangleGraph)).
  { cbn. repeat constructor. }
  split; [exact H|].
  apply (copraVertexWeights_totals triangleGraph [7; 7; 7]%Q H).
Defined.

(** X2.  A vertex key outside the table makes [copraVertexWeights] fault:
    the store [vtot[u] = V()] is outside the vector. *)
Theorem copraVertexWeights_out_of_range (x : Graph) (vtot : list V) :
  Exists (fun u => length vtot <= u) (vertexKeys x) ->
  copraVertexWeights vtot x = OutOfBounds.
Proof.
  unfold copraVertexWeights.
  generalize (vertexKeys x) as keys. intros keys. revert vtot.
  induction keys as [|u ks IH]; intros vtot Hex; [inversion Hex|].
  cbn [foldM]. destruct (decide (u < length vtot)) as [Hu|Hu].
  - rewrite wr_lt by exact Hu. cbn [bind].
    rewrite (add_edge_weights u (edges x u) _ 0%Q)
      by (apply list_lookup_insert_eq; exact Hu).
    cbn [bind]. apply IH.
    apply Exists_cons in Hex as [Hge|Hex]; [lia|].
    rewrite !length_insert. exact Hex.
  - rewrite wr_ge by lia. reflexivity.
Qed.

Lemma copraVertexWeights_out_of_range_witness :
  Exists (fun u => length [0; 0]%Q <= u) (vertexKeys pathGraph)
  /\ copraVertexWeights [0; 0]%Q pathGraph = OutOfBounds.
Proof.
  assert (H : Exists (fun u => length [0; 0]%Q <= u) (vertexKeys pathGraph)).
  { cbn. apply Exists_cons_tl, Exists_cons_tl, Exists_cons_hd. lia. }
  split; [exact H|].
  apply (copraVertexWeights_out_of_range pathGraph [0; 0]%Q H).
Defined.

Lemma primary_singleton (L : nat) (vcom : list Labelset) (u c : K) :
  1 <= L -> vcom !! u = Some (singletonLabelset L c) -> primary vcom u = Ok c.
Proof.
  intros HL Hu. unfold primary. rewrite (rd_lookup _ _ _ Hu). cbn [bind].
  destruct L as [|L']; [lia|]. reflexivity.
Qed.

(** X3.  When every vertex key indexes [vcom] and a labelset has at least
    one slot, [copraInitialize] gives every vertex of the graph the
    singleton labelset of its own id, so that its primary community is the
    vertex itself, and leaves the labelsets of all other indices as they
    were. *)
Theorem copraInitialize_own_community (L : nat) (x : Graph) (vcom : list Labelset) :
  1 <= L ->
  Forall (fun u => u < length vcom) (vertexKeys x) ->
  exists vcom',
    copraInitialize L vcom x = Ok vcom'
    /\ length vcom' = length vcom
    /\ (forall u, u ∈ vertexKeys x ->
         vcom' !! u = Some (singletonLabelset L u)
         /\ primary vcom' u = Ok u
         /\ (sumCoefficients (singletonLabelset L u) == 1)%Q)
    /\ (forall i, i ∉ vertexKeys x -> vcom' !! i = vcom !! i).
Proof.
  intros HL Hk. unfold copraInitialize.
  destruct (foldM_write_each (fun t u => wr t u (singletonLabelset L u))
              (singletonLabelset L) (fun t u Hu => wr_lt t u _ Hu)
              (vertexKeys x) vcom Hk) as (vcom' & H & Hlen & Hin & Hout).
  exists vcom'. split; [exact H|]. split; [exact Hlen|]. split; [|exact Hout].
  intros u Hu. split; [apply Hin, Hu|].
  split; [eapply primary_singleton; [exact HL|apply Hin, Hu]|].
  rewrite singletonLabelset_labelsetOf by exact HL.
  rewrite sumCoefficients_labelsetOf. unfold sumCoefficients. cbn. ring.
Qed.

Lemma copraInitialize_own_community_witness :
  1 <= COPRA_LABELS
  /\ exists vcom',
       copraInitialize COPRA_LABELS (replicate 3 []) pathGraph = Ok vcom'
       /\ length vcom' = length (replicate 3 ([] : Labelset))
       /\ (forall u, u ∈ vertexKeys pathGraph ->
            vcom' !! u = Some (singletonLabelset COPRA_LABELS u)
            /\ primary vcom' u = Ok u
            /\ (sumCoefficients (singletonLabelset COPRA_LABELS u) == 1)%Q)
       /\ (forall i, i ∉ vertexKeys pathGraph ->
            vcom' !! i = replicate 3 ([] : Labelset) !! i).
Proof.
  assert (HL : 1 <= COPRA_LABELS) by (unfold COPRA_LABELS; lia).
  split; [exact HL|].
  apply (copraInitialize_own_community COPRA_LABELS pathGraph (replicate 3 []) HL).
  cbn. repeat constructor.
Defined.

(** ** Best communities *)

Lemma bestFrom_spec (vcom : list Labelset) (k : nat) :
  forall (i : nat) (a : list K),
  (forall j, i <= j < i + k -> exists c, primary vcom j = Ok c) ->
  i + k <= length a ->
  exists a', bestFrom vcom i k a = Ok a'
    /\ length a' = length a
    /\ (forall j, j < i -> a' !! j = a !! j)
    /\ (forall j c, i <= j < i + k -> primary vcom j = Ok c -> a' !! j = Some c).
Proof.
  induction k as [|k IH]; intros i a Hp Hlen; cbn [bestFrom].
  - exists a. repeat split; auto. intros j c Hj. lia.
  - destruct (Hp i) as [c Hc]; [lia|]. rewrite Hc. cbn [bind].
    rewrite wr_lt by lia. cbn [bind].
    destruct (IH (S i) (<[i := c]> a)) as (a' & Ha' & Hl & Hlow & Hhigh).
    { intros j Hj. apply Hp. lia. }
    { rewrite length_insert. lia. }
    exists a'. split; [exact Ha'|]. rewrite length_insert in Hl.
    split; [exact Hl|]. split.
    + intros j Hj. rewrite Hlow by lia. apply list_lookup_insert_ne. lia.
    + intros j c' Hj Hc'. destruct (decide (j = i)) as [->|Hne].
      * rewrite Hlow by lia. rewrite list_lookup_insert_eq by lia. congruence.
      * apply Hhigh; [lia|exact Hc'].
Qed.

Lemma primary_nonempty (vcom : list Labelset) (i : nat) :
  Forall (fun ls : Labelset => ls <> []) vcom -> i < length vcom ->
  exists c, primary vcom i = Ok c.
Proof.
  intros Hne Hi. apply lookup_lt_is_Some in Hi as [ls Hls].
  rewrite Forall_forall in Hne.
  pose proof (Hne ls (list_elem_of_lookup_2 _ _ _ Hls)) as Hls'.
  unfold primary. rewrite (rd_lookup _ _ _ Hls). cbn [bind].
  destruct ls as [|e ls]; [congruence|]. exists (fst e). reflexivity.
Qed.

Lemma copraBestCommunities_Ok (vcom : list Labelset) :
  Forall (fun ls : Labelset => ls <> []) vcom ->
  exists a, copraBestCommunities vcom = Ok a
    /\ length a = length vcom
    /\ (forall i c, primary vcom i = Ok c -> a !! i = Some c).
Proof.
  intros Hne. unfold copraBestCommunities.
  destruct (bestFrom_spec vcom (length vcom) 0 (replicate (length vcom) 0))
    as (a & Ha & Hl & _ & Hhigh).
  { intros j Hj. apply primary_nonempty; [exact Hne|lia]. }
  { rewrite length_replicate. lia. }
  exists a. split; [exact Ha|]. rewrite length_replicate in Hl.
  split; [exact Hl|]. intros i c Hc. apply Hhigh; [|exact Hc].
  unfold primary in Hc. inv_bind Hc as ls Hls Hc.
  apply rd_Ok, lookup_lt_Some in Hls. lia.
Qed.

(** X4.  When every labelset has at least one slot, [copraBestCommunities]
    returns a vector as long as the labelset table whose entry [i] is the
    primary community of vertex [i], the community of slot 0 of [vcom[i]]. *)
Theorem copraBestCommunities_primaries (vcom : list Labelset) :
  Forall (fun ls : Labelset => ls <> []) vcom ->
  exists a, copraBestCommunities vcom = Ok a
    /\ length a = length vcom
    /\ (forall i c, primary vcom i = Ok c -> a !! i = Some c).
Proof. apply copraBestCommunities_Ok. Qed.

Lemma copraBestCommunities_primaries_witness :
  Forall (fun ls : Labelset => ls <> []) twoPairsCommunities
  /\ exists a, copraBestCommunities twoPairsCommunities = Ok a
       /\ length a = length twoPairsCommunities
       /\ (forall i c, primary twoPairsCommunities i = Ok c -> a !! i = Some c).
Proof.
  assert (H : Forall (fun ls : Labelset => ls <> []) twoPairsCommunities).
  { repeat constructor; discriminate. }
  split; [exact H|].
  apply (copraBestCommunities_primaries twoPairsCommunities H).
Defined.

(** X5.  Initialisation followed by the read-out is the identity
    assignment: on a graph whose vertex keys are exactly the indices of the
    labelset table, [copraBestCommunities] after [copraInitialize] returns
    [0, 1, ..., S-1], every vertex in its own community. *)
Theorem copraInitialize_best_is_identity (L : nat) (x : Graph) (vcom : list Labelset) :
  1 <= L ->
  (forall u, u ∈ vertexKeys x <-> u < length vcom) ->
  exists vcom',
    copraInitialize L vcom x = Ok vcom'
    /\ copraBestCommunities vcom' = Ok (seq 0 (length vcom)).
Proof.
  intros HL Hkeys. unfold copraInitialize.
  destruct (foldM_write_each (fun t u => wr t u (singletonLabelset L u))
              (singletonLabelset L) (fun t u Hu => wr_lt t u _ Hu)
              (vertexKeys x) vcom) as (vcom' & H & Hlen & Hin & _).
  { apply Forall_forall. intros u Hu. apply Hkeys, Hu. }
  exists vcom'. split; [exact H|].
  destruct (copraBestCommunities_Ok vcom') as (a & Ha & Hla & Hprim).
  { apply Forall_forall. intros ls Hls.
    apply list_elem_of_lookup_1 in Hls as [i Hi].
    assert (Hlt : i < length vcom) by (rewrite <- Hlen; eapply lookup_lt_Some; exact Hi).
    rewrite (Hin i) in Hi by (apply Hkeys; exact Hlt).
    injection Hi as <-. destruct L; [lia|discriminate]. }
  rewrite Ha. f_equal. apply list_eq. intros i.
  destruct (decide (i < length vcom)) as [Hlt|Hge].
  - rewrite lookup_seq_lt by exact Hlt. cbn [Nat.add]. apply Hprim.
    eapply primary_singleton; [exact HL|]. apply Hin, Hkeys, Hlt.
  - rewrite lookup_seq_ge by lia. apply lookup_ge_None. lia.
Qed.

Lemma copraInitialize_best_is_identity_witness :
  (forall u, u ∈ vertexKeys pathGraph <-> u < length (replicate 3 ([] : Labelset)))
  /\ exists vcom',
       copraInitialize COPRA_LABELS (replicate 3 []) pathGraph = Ok vcom'
       /\ copraBestCommunities vcom' = Ok (seq 0 (length (replicate 3 ([] : Labelset)))).
Proof.
  assert (H : forall u, u ∈ vertexKeys pathGraph <-> u < length (replicate 3 ([] : Labelset))).
  { intros u. cbn [vertexKeys pathGraph replicate length].
    rewrite !elem_of_cons, elem_of_nil. lia. }
  split; [exact H|].
  apply (copraInitialize_best_is_identity COPRA_LABELS pathGraph (replicate 3 [])).
  - unfold COPRA_LABELS. lia.
  - exact H.
Defined.

(** ** The scratch state of the scanner *)

Lemma sumWeights_insert (l : list V) : forall (c : nat) (x y : V),
  l !! c = Some x ->
  (sumWeights (<[c := y]> l) == sumWeights l - x + y)%Q.
Proof.
  unfold sumWeights. induction l as [|z l IH]; intros c x y Hx; [discriminate|].
  destruct c as [|c]; cbn [fold_right].
  - cbn in Hx. injection Hx as ->.
    change (<[0 := y]> (x :: l)) with (y :: l). cbn [fold_right]. ring.
  - cbn in Hx. change (<[S c := y]> (z :: l)) with (z :: <[c := y]> l).
    cbn [fold_right]. rewrite (IH c x y Hx). ring.
Qed.

Lemma isZero_zero : isZero 0 = true.
Proof. reflexivity. Qed.

(** One successful iteration of the walk over a labelset. *)
Lemma scanLabels_cons_Ok (w : V) (c : K) (b : V) (ls : Labelset) (s s' : Scan) :
  isZero b = false ->
  scanLabels w ((c, b) :: ls) s = Ok s' ->
  exists x, snd s !! c = Some x
    /\ scanLabels w ls (if isZero x then fst s ++ [c] else fst s,
                        <[c := (x + w * b)%Q]> (snd s)) = Ok s'.
Proof.
  intros Hb H. cbn [scanLabels] in H. rewrite Hb in H.
  inv_bind H as x Hx H. inv_bind H as vcout' Hw H.
  apply rd_Ok in Hx. apply wr_Ok in Hw as [_ ->]. eauto.
Qed.

(** X6.  The walk stops at the first zero coefficient: the entries of a
    labelset from its first zero coefficient on play no part in the scan. *)
Theorem scanLabels_stops_at_sentinel (w : V) (ls : Labelset) (s : Scan) :
  scanLabels w ls s = scanLabels w (populatedPrefix ls) s.
Proof.
  revert s. induction ls as [|[c b] ls IH]; intros s; [reflexivity|].
  cbn [scanLabels populatedPrefix]. destruct (isZero b) eqn:Hb; [reflexivity|].
  cbn [scanLabels]. rewrite Hb.
  destruct (rd (snd s) c) as [x| | |]; cbn [bind]; try reflexivity.
  destruct (wr (snd s) c (x + w * b)%Q) as [t| | |]; cbn [bind]; try reflexivity.
  apply IH.
Qed.

Lemma scanLabels_invariants (w : V) (ls : Labelset) :
  forall s s', scanLabels w ls s = Ok s' ->
  length (snd s') = length (snd s)
  /\ (sumWeights (snd s') == sumWeights (snd s) + w * sumCoefficients (populatedPrefix ls))%Q
  /\ (inRange (snd s) (fst s) -> inRange (snd s') (fst s'))
  /\ (scratchTracked s -> scratchTracked s')
  /\ (exists new, fst s' = fst s ++ new
                  /\ forall c, c ∈ new -> c ∈ map fst (populatedPrefix ls)).
Proof.
  induction ls as [|[c b] ls IH]; intros s s' H.
  - cbn [scanLabels] in H. injection H as <-. cbn [populatedPrefix].
    split; [reflexivity|]. split; [unfold sumCoefficients; cbn; ring|].
    split; [auto|]. split; [auto|].
    exists []. rewrite app_nil_r. split; [reflexivity|]. intros c Hc. inversion Hc.
  - cbn [populatedPrefix]. destruct (isZero b) eqn:Hb.
    + cbn [scanLabels] in H. rewrite Hb in H. injection H as <-.
      split; [reflexivity|]. split; [unfold sumCoefficients; cbn; ring|].
      split; [auto|]. split; [auto|].
      exists []. rewrite app_nil_r. split; [reflexivity|]. intros d Hd. inversion Hd.
    + apply (scanLabels_cons_Ok _ _ _ _ _ _ Hb) in H as (x & Hx & H).
      apply IH in H as (Hlen & Hsum & Hin & Htr & new & Hnew & Hsub).
      cbn [fst snd] in *. rewrite length_insert in Hlen.
      pose proof (lookup_lt_Some _ _ _ Hx) as Hc.
      split; [exact Hlen|]. split.
      { rewrite Hsum, (sumWeights_insert _ _ _ _ Hx).
        unfold sumCoefficients. cbn [map fold_right snd]. ring. }
      split.
      { intros Hr. apply Hin. unfold inRange in *. rewrite length_insert.
        destruct (isZero x); [|exact Hr].
        apply Forall_app. split; [exact Hr|]. repeat constructor. exact Hc. }
      split.
      { intros Ht. apply Htr. intros d y Hd. cbn [fst snd] in *.
        destruct (decide (c = d)) as [<-|Hne].
        - right. destruct (isZero x) eqn:Hz.
          + apply elem_of_app. right. apply list_elem_of_here.
          + destruct (Ht c x Hx) as [->|Hel]; [discriminate Hz|exact Hel].
        - rewrite list_lookup_insert_ne in Hd by exact Hne.
          destruct (Ht d y Hd) as [->|Hel]; [left; reflexivity|right].
          destruct (isZero x); [apply elem_of_app; left|]; exact Hel. }
      destruct (isZero x).
      * exists (c :: new). rewrite Hnew, <- app_assoc. split; [reflexivity|].
        intros d Hd. cbn [map fst]. apply elem_of_cons in Hd as [->|Hd].
        -- apply list_elem_of_here.
        -- apply list_elem_of_further, Hsub, Hd.
      * exists new. split; [exact Hnew|].
        intros d Hd. cbn [map fst]. apply list_elem_of_further, Hsub, Hd.
Qed.

(** X7.  A walk over a labelset adds to the scratch table exactly the edge
    weight times the sum of the populated coefficients, keeps the length of
    the table, and only appends to the touched list, and only communities of
    populated entries. *)
Theorem scanLabels_distributes_weight (w : V) (ls : Labelset) (s s' : Scan) :
  scanLabels w ls s = Ok s' ->
  length (snd s') = length (snd s)
  /\ (sumWeights (snd s') == sumWeights (snd s) + w * sumCoefficients (populatedPrefix ls))%Q
  /\ (exists new, fst s' = fst s ++ new
                  /\ forall c, c ∈ new -> c ∈ map fst (populatedPrefix ls)).
Proof.
  intros H. apply scanLabels_invariants in H as (H1 & H2 & _ & _ & H3). auto.
Qed.

Lemma scanLabels_distributes_weight_witness :
  scanLabels 5 [(2, 3 # 4); (1, 1 # 4); (0, 0%Q)] ([], [0; 0; 0]%Q)
  = Ok ([2; 1], [0; 0 + 5 * (1 # 4); 0 + 5 * (3 # 4)]%Q)
  /\ length [0; 0 + 5 * (1 # 4); 0 + 5 * (3 # 4)]%Q = length [0; 0; 0]%Q
  /\ (sumWeights [0; 0 + 5 * (1 # 4); 0 + 5 * (3 # 4)]
      == sumWeights [0; 0; 0]
         + 5 * sumCoefficients (populatedPrefix [(2%nat, 3 # 4); (1%nat, 1 # 4); (0%nat, 0)]))%Q
  /\ (exists new, [2; 1] = [] ++ new
                  /\ forall c, c ∈ new ->
                       c ∈ map fst (populatedPrefix [(2, 3 # 4); (1, 1 # 4); (0, 0%Q)])).
Proof.
  assert (H : scanLabels 5 [(2, 3 # 4); (1, 1 # 4); (0, 0%Q)] ([], [0; 0; 0]%Q)
              = Ok ([2; 1], [0; 0 + 5 * (1 # 4); 0 + 5 * (3 # 4)]%Q)) by reflexivity.
  split; [exact H|].
  apply (scanLabels_distributes_weight 5 [(2, 3 # 4); (1, 1 # 4); (0, 0%Q)]
           ([], [0; 0; 0]%Q) _ H).
Defined.

Lemma scanKeeps_refl (s : Scan) : scanKeeps s s.
Proof. repeat split; auto. Qed.

Lemma scanKeeps_trans (a b c : Scan) : scanKeeps a b -> scanKeeps b c -> scanKeeps a c.
Proof.
  intros (H1 & H2 & H3) (H4 & H5 & H6). repeat split; [congruence|auto|auto].
Qed.

Lemma copraScanCommunity_keeps (SELF : bool) (s s' : Scan) (u v : K) (w : V)
    (vcom : list Labelset) :
  copraScanCommunity SELF s u v w vcom = Ok s' -> scanKeeps s s'.
Proof.
  unfold copraScanCommunity. destruct (negb SELF && (u =? v)); intros H.
  - injection H as <-. apply scanKeeps_refl.
  - inv_bind H as ls Hls H.
    apply scanLabels_invariants in H as (H1 & _ & H2 & H3 & _).
    repeat split; assumption.
Qed.

Lemma copraScanCommunities_keeps (SELF : bool) (s s' : Scan) (x : Graph) (u : K)
    (vcom : list Labelset) :
  copraScanCommunities SELF s x u vcom = Ok s' -> scanKeeps s s'.
Proof.
  unfold copraScanCommunities. intros H.
  apply (foldM_preserves _ scanKeeps scanKeeps_refl scanKeeps_trans
           (fun a e a' => copraScanCommunity_keeps SELF a a' u (fst e) (snd e) vcom)
           _ _ _ H).
Qed.

Lemma copraClearScan_Ok (s : Scan) :
  inRange (snd s) (fst s) ->
  exists t, copraClearScan s = Ok ([], t)
    /\ length t = length (snd s)
    /\ (forall c, c ∈ fst s -> t !! c = Some 0%Q)
    /\ (forall i, i ∉ fst s -> t !! i = snd s !! i).
Proof.
  intros Hr. unfold copraClearScan.
  destruct (foldM_write_each (fun t c => wr t c 0%Q) (fun _ => 0%Q)
              (fun t c Hc => wr_lt t c _ Hc) (fst s) (snd s) Hr)
    as (t & -> & Hlen & Hin & Hout).
  exists t. cbn [bind]. auto.
Qed.

(** X8.  When the touched communities index the table, [copraClearScan]
    empties the touched list, sets the entry of every touched community to
    zero and leaves every other entry and the length of the table as they
    were. *)
Theorem copraClearScan_resets_touched (s : Scan) :
  inRange (snd s) (fst s) ->
  exists t, copraClearScan s = Ok ([], t)
    /\ length t = length (snd s)
    /\ (forall c, c ∈ fst s -> t !! c = Some 0%Q)
    /\ (forall i, i ∉ fst s -> t !! i = snd s !! i).
Proof. apply copraClearScan_Ok. Qed.

Lemma copraClearScan_resets_touched_witness :
  inRange (snd ([2; 0], [4; 7; 1]%Q)) (fst ([2; 0], [4; 7; 1]%Q))
  /\ exists t, copraClearScan ([2; 0], [4; 7; 1]%Q) = Ok ([], t)
       /\ length t = length (snd ([2; 0], [4; 7; 1]%Q))
       /\ (forall c, c ∈ fst ([2; 0], [4; 7; 1]%Q) -> t !! c = Some 0%Q)
       /\ (forall i, i ∉ fst ([2; 0], [4; 7; 1]%Q) ->
                     t !! i = snd ([2; 0], [4; 7; 1]%Q) !! i).
Proof.
  assert (H : inRange (snd ([2; 0], [4; 7; 1]%Q)) (fst ([2; 0], [4; 7; 1]%Q))).
  { unfold inRange. cbn. repeat constructor. }
  split; [exact H|].
  apply (copraClearScan_resets_touched ([2; 0], [4; 7; 1]%Q) H).
Defined.

(** X9.  Scanning and clearing compose to a clean scratch state: after
    [copraScanCommunities] on a scratch state whose nonzero entries are all
    tracked by the touched list, [copraClearScan] returns the empty touched
    list and a table of the same length holding zero everywhere. *)
Theorem copraClearScan_after_scan_is_clean (SELF : bool) (s s' : Scan) (x : Graph)
    (u : K) (vcom : list Labelset) :
  inRange (snd s) (fst s) ->
  scratchTracked s ->
  copraScanCommunities SELF s x u vcom = Ok s' ->
  copraClearScan s' = Ok ([], replicate (length (snd s)) 0%Q).
Proof.
  intros Hr Ht H. apply copraScanCommunities_keeps in H as (Hlen & Hr' & Ht').
  specialize (Hr' Hr). specialize (Ht' Ht).
  destruct (copraClearScan_Ok s' Hr') as (t & -> & Hl & Hin & Hout).
  f_equal. f_equal. symmetry. apply replicate_as_Forall_2; [congruence|].
  apply Forall_forall. intros y Hy. apply list_elem_of_lookup_1 in Hy as [i Hi].
  destruct (decide (i ∈ fst s')) as [Hel|Hnel].
  - rewrite (Hin i Hel) in Hi. congruence.
  - rewrite (Hout i Hnel) in Hi. destruct (Ht' i y Hi) as [->|Hel]; [reflexivity|].
    contradiction.
Qed.

Lemma copraClearScan_after_scan_is_clean_witness :
  copraScanCommunities false ([], [0; 0; 0]%Q) triangleGraph 0
    (ownCommunities COPRA_LABELS 3)
  = Ok ([0], [0 + 1 * 1 + 5 * 1; 0; 0]%Q)
  /\ copraClearScan ([0], [0 + 1 * 1 + 5 * 1; 0; 0]%Q)
     = Ok ([], replicate (length (snd (([] : list nat), [0; 0; 0]%Q))) 0%Q).
Proof.
  assert (H : copraScanCommunities false ([], [0; 0; 0]%Q) triangleGraph 0
                (ownCommunities COPRA_LABELS 3)
              = Ok ([0], [0 + 1 * 1 + 5 * 1; 0; 0]%Q)) by reflexivity.
  split; [exact H|].
  apply (copraClearScan_after_scan_is_clean false ([], [0; 0; 0]%Q) _ triangleGraph 0
           (ownCommunities COPRA_LABELS 3)); [| |exact H].
  - unfold inRange. constructor.
  - intros c y Hy. left. cbn [snd] in Hy.
    destruct c as [|[|[|c]]]; cbn in Hy;
      first [discriminate Hy | injection Hy as <-; reflexivity].
Defined.

Lemma isZero_true (x : V) : isZero x = true <-> (x == 0)%Q.
Proof. unfold isZero. apply Qeq_bool_iff. Qed.

Lemma scratchPositive_clean (n : nat) : scratchPositive ([], replicate n 0%Q).
Proof.
  split; [constructor|]. cbn [fst snd]. split.
  - intros c x Hx. apply lookup_replicate in Hx as [-> _]. lra.
  - intros c. split; [intros H; inversion H|].
    intros (x & Hx & Hpos). apply lookup_replicate in Hx as [-> _]. lra.
Qed.

Lemma scratchPositive_step (vcs : list K) (vcout : list V) (c : K) (x d : V) :
  scratchPositive (vcs, vcout) ->
  vcout !! c = Some x ->
  (0 < d)%Q ->
  scratchPositive (if isZero x then vcs ++ [c] else vcs, <[c := (x + d)%Q]> vcout)
  /\ c ∈ (if isZero x then vcs ++ [c] else vcs).
Proof.
  intros (Hnd & Hnn & Hiff) Hx Hd. cbn [fst snd] in *.
  pose proof (Hnn c x Hx) as Hx0.
  pose proof (lookup_lt_Some _ _ _ Hx) as Hc.
  assert (Hmem : c ∈ (if isZero x then vcs ++ [c] else vcs)).
  { destruct (isZero x) eqn:Hz.
    - apply elem_of_app. right. apply list_elem_of_here.
    - apply isZero_false in Hz. apply Hiff. exists x. split; [exact Hx|].
      destruct (Qlt_le_dec 0 x) as [?|Hle]; [assumption|].
      exfalso. apply Hz. lra. }
  split; [|exact Hmem]. split; [|split]; cbn [fst snd].
  - destruct (isZero x) eqn:Hz; [|exact Hnd].
    apply NoDup_app. split; [exact Hnd|]. split; [|apply NoDup_singleton].
    intros y Hy Hyc. apply list_elem_of_singleton in Hyc as ->.
    apply Hiff in Hy as (x' & Hx' & Hpos).
    apply isZero_true in Hz. assert (x' = x) as -> by congruence. lra.
  - intros e y Hy. destruct (decide (c = e)) as [<-|Hne].
    + rewrite list_lookup_insert_eq in Hy by exact Hc. injection Hy as <-. lra.
    + rewrite list_lookup_insert_ne in Hy by exact Hne. eapply Hnn, Hy.
  - intros e. destruct (decide (c = e)) as [<-|Hne].
    + split; [intros _|intros _; exact Hmem].
      exists (x + d)%Q. split; [apply list_lookup_insert_eq; exact Hc|lra].
    + rewrite list_lookup_insert_ne by exact Hne. rewrite <- Hiff.
      destruct (isZero x); [|reflexivity].
      rewrite elem_of_app, list_elem_of_singleton. split; [|auto].
      intros [?|?]; [assumption|congruence].
Qed.

Lemma scanLabels_positive (w : V) (ls : Labelset) :
  (0 < w)%Q ->
  Forall (fun e : K * V => (0 < snd e)%Q) (populatedPrefix ls) ->
  forall s s', scratchPositive s -> scanLabels w ls s = Ok s' ->
  scratchPositive s'
  /\ forall c, c ∈ map fst (populatedPrefix ls) -> c ∈ fst s'.
Proof.
  intros Hw. induction ls as [|[c b] ls IH]; intros Hpos s s' Hs H.
  - cbn [scanLabels] in H. injection H as <-. split; [exact Hs|].
    intros c Hc. inversion Hc.
  - cbn [populatedPrefix] in *. destruct (isZero b) eqn:Hb.
    + cbn [scanLabels] in H. rewrite Hb in H. injection H as <-.
      split; [exact Hs|]. intros d Hd. inversion Hd.
    + apply Forall_cons in Hpos as [Hbpos Hpos]. cbn [snd] in Hbpos.
      apply (scanLabels_cons_Ok _ _ _ _ _ _ Hb) in H as (x & Hx & H).
      destruct s as [vcs vcout]. cbn [fst snd] in *.
      assert (Hd : (0 < w * b)%Q) by (apply Qmult_lt_0_compat; assumption).
      destruct (scratchPositive_step vcs vcout c x (w * b)%Q Hs Hx Hd) as [Hs1 Hmem].
      pose proof (scanLabels_invariants _ _ _ _ H) as (_ & _ & _ & _ & new & Hnew & _).
      destruct (IH Hpos _ _ Hs1 H) as [Hs' Hall]. cbn [fst snd] in Hnew.
      split; [exact Hs'|]. intros e He. cbn [map fst] in He.
      apply elem_of_cons in He as [->|He]; [|apply Hall, He].
      rewrite Hnew. apply elem_of_app. left. exact Hmem.
Qed.

(** X10.  With a positive edge weight and positive populated coefficients,
    the walk keeps the scratch state well-formed: the touched list has no
    duplicates and is exactly the set of communities with positive
    accumulated weight, so a community is appended only the first time it
    is touched, and every community of a populated entry is in the list
    afterwards. *)
Theorem scanLabels_appends_on_first_touch (w : V) (ls : Labelset) (s s' : Scan) :
  (0 < w)%Q ->
  Forall (fun e : K * V => (0 < snd e)%Q) (populatedPrefix ls) ->
  scratchPositive s ->
  scanLabels w ls s = Ok s' ->
  scratchPositive s'
  /\ forall c, c ∈ map fst (populatedPrefix ls) -> c ∈ fst s'.
Proof. intros Hw Hpos. apply scanLabels_positive; assumption. Qed.

Lemma scanLabels_appends_on_first_touch_witness :
  scanLabels 5 [(2, 3 # 4); (2, 1 # 4); (0, 0%Q)] ([], [0; 0; 0]%Q)
  = Ok ([2], [0; 0; 0 + 5 * (3 # 4) + 5 * (1 # 4)]%Q)
  /\ scratchPositive ([2], [0; 0; 0 + 5 * (3 # 4) + 5 * (1 # 4)]%Q)
  /\ forall c, c ∈ map fst (populatedPrefix [(2, 3 # 4); (2, 1 # 4); (0, 0%Q)]) ->
               c ∈ fst ([2], [0; 0; 0 + 5 * (3 # 4) + 5 * (1 # 4)]%Q).
Proof.
  assert (H : scanLabels 5 [(2, 3 # 4); (2, 1 # 4); (0, 0%Q)] ([], [0; 0; 0]%Q)
              = Ok ([2], [0; 0; 0 + 5 * (3 # 4) + 5 * (1 # 4)]%Q)) by reflexivity.
  split; [exact H|].
  apply (scanLabels_appends_on_first_touch 5 [(2, 3 # 4); (2, 1 # 4); (0, 0%Q)]
           ([], [0; 0; 0]%Q) _); [reflexivity| |apply (scratchPositive_clean 3)|exact H].
  cbn. repeat constructor.
Defined.

(** ** Outcomes and results of the selector *)

(** X11.  The faults of the selector, for touched communities that index
    [vcout]: it writes outside the labelset exactly when the labelset has no
    slot or more communities reach the threshold than it has slots, and
    otherwise divides by zero exactly when something was touched and the
    candidates' total weight is zero; in all other cases it returns a
    labelset of [L] slots. *)
Theorem copraChooseCommunity_outcomes
    (L : nat) (u : K) (vcs : list K) (vcout : list V) (WTH : V) :
  inRange vcout vcs ->
  (copraChooseCommunity L u vcs vcout WTH = OutOfBounds
   <-> L = 0 \/ L < length (qualifying vcs vcout WTH))
  /\ (copraChooseCommunity L u vcs vcout WTH = DivByZero
      <-> 1 <= L /\ length (qualifying vcs vcout WTH) <= L /\ vcs <> []
          /\ (totalWeight vcout (candidates vcs vcout WTH) == 0)%Q)
  /\ (forall a, copraChooseCommunity L u vcs vcout WTH = Ok a -> length a = L).
Proof.
  intros Hin. rewrite (copraChooseCommunity_spec vcout WTH L u vcs Hin). cbv zeta.
  destruct (Nat.eqb_spec L 0) as [HL|HL]; cbn [orb].
  { split; [split; [auto|reflexivity]|]. split; [|discriminate].
    split; [discriminate|]. intros (? & _). lia. }
  destruct (Nat.ltb_spec L (length (qualifying vcs vcout WTH))) as [Hov|Hle].
  { split; [split; [auto|reflexivity]|]. split; [|discriminate].
    split; [discriminate|]. intros (_ & ? & _). lia. }
  assert (Hlc : length (candidates vcs vcout WTH) <= L)
    by (rewrite length_candidates; lia).
  destruct (candidates vcs vcout WTH) as [|c cs] eqn:Hc.
  - assert (vcs = []) as ->.
    { destruct vcs; [reflexivity|].
      exfalso. eapply candidates_nonempty; [|exact Hc]. discriminate. }
    split; [split; [discriminate|lia]|]. split.
    + split; [discriminate|]. intros (_ & _ & ? & _). congruence.
    + intros a [= <-]. destruct L; [lia|]. cbn [singletonLabelset length].
      rewrite length_replicate. reflexivity.
  - assert (Hne : vcs <> []).
    { intros ->. discriminate Hc. }
    destruct (isZero (totalWeight vcout (c :: cs))) eqn:Hz.
    + split; [split; [discriminate|lia]|]. split; [|discriminate].
      split; [|reflexivity]. intros _. apply isZero_true in Hz.
      repeat split; [lia|exact Hle|exact Hne|exact Hz].
    + split; [split; [discriminate|lia]|]. split.
      * split; [discriminate|]. intros (_ & _ & _ & E).
        apply isZero_false in Hz. contradiction.
      * intros a [= <-]. apply length_labelsetOf.
        change (length (normalized vcout (totalWeight vcout (c :: cs)) (c :: cs)) <= L).
        unfold normalized. rewrite length_map. exact Hlc.
Qed.

Lemma copraChooseCommunity_outcomes_witness :
  inRange sampleWeights sampleTouched
  /\ (copraChooseCommunity 1 0 sampleTouched sampleWeights 1%Q = OutOfBounds
      <-> 1 = 0 \/ 1 < length (qualifying sampleTouched sampleWeights 1%Q))
  /\ (copraChooseCommunity 1 0 sampleTouched sampleWeights 1%Q = DivByZero
      <-> 1 <= 1 /\ length (qualifying sampleTouched sampleWeights 1%Q) <= 1
          /\ sampleTouched <> []
          /\ (totalWeight sampleWeights (candidates sampleTouched sampleWeights 1) == 0)%Q)
  /\ (forall a, copraChooseCommunity 1 0 sampleTouched sampleWeights 1%Q = Ok a ->
                length a = 1).
Proof.
  assert (H : inRange sampleWeights sampleTouched).
  { unfold inRange. repeat constructor. }
  split; [exact H|].
  apply (copraChooseCommunity_outcomes 1 0 sampleTouched sampleWeights 1%Q H).
Defined.

(** The selector on positive accumulated weights: either nothing was
    touched and the result is the vertex's own singleton, or the result
    holds the candidates normalised by their positive total. *)
Lemma copraChooseCommunity_positive (L : nat) (u : K) (vcs : list K)
    (vcout : list V) (WTH : V) (a : Labelset) :
  inRange vcout vcs ->
  Forall (fun c => (0 < weightOf vcout c)%Q) vcs ->
  copraChooseCommunity L u vcs vcout WTH = Ok a ->
  1 <= L
  /\ ((vcs = [] /\ a = labelsetOf L [(u, 1%Q)])
      \/ (vcs <> []
          /\ (0 < totalWeight vcout (candidates vcs vcout WTH))%Q
          /\ length (candidates vcs vcout WTH) <= L
          /\ a = labelsetOf L (normalized vcout
                                 (totalWeight vcout (candidates vcs vcout WTH))
                                 (candidates vcs vcout WTH)))).
Proof.
  intros Hin Hpos H.
  rewrite (copraChooseCommunity_spec vcout WTH L u vcs Hin) in H. cbv zeta in H.
  destruct (Nat.eqb_spec L 0) as [HL|HL]; cbn [orb] in H; [discriminate|].
  destruct (Nat.ltb_spec L (length (qualifying vcs vcout WTH))) as [Hov|Hle];
    [discriminate|].
  split; [lia|].
  destruct vcs as [|c0 vcs'].
  - left. split; [reflexivity|]. cbn in H. injection H as <-.
    apply singletonLabelset_labelsetOf. lia.
  - right. split; [discriminate|].
    set (vcs := c0 :: vcs') in *.
    assert (Hne : vcs <> []) by discriminate.
    pose proof (weights_positive_total vcout (candidates vcs vcout WTH)
                  (candidates_subset _ _ _ _ Hpos)
                  (candidates_nonempty _ _ _ Hne)) as Htot.
    split; [exact Htot|]. split; [rewrite length_candidates; subst vcs; cbn [length]; lia|].
    pose proof (candidates_nonempty vcs vcout WTH Hne) as Hc.
    destruct (candidates vcs vcout WTH) as [|c cs] eqn:Ec; [congruence|].
    assert (Hz : isZero (totalWeight vcout (c :: cs)) = false)
      by (apply isZero_false; lra).
    rewrite Hz in H. injection H as <-. reflexivity.
Qed.

Lemma weight_le_sum (vcout : list V) (cs : list K) (c : K) :
  Forall (fun d => (0 < weightOf vcout d)%Q) cs -> c ∈ cs ->
  (weightOf vcout c <= fold_right Qplus 0 (map (weightOf vcout) cs))%Q.
Proof.
  induction 1 as [|d cs Hd Hcs IH]; intros Hc; [inversion Hc|].
  cbn [map fold_right]. pose proof (weights_nonneg_sum _ _ Hcs).
  apply elem_of_cons in Hc as [->|Hc]; [lra|]. specialize (IH Hc). lra.
Qed.

Lemma normalized_bounds (vcout : list V) (cs : list K) :
  Forall (fun d => (0 < weightOf vcout d)%Q) cs ->
  (0 < totalWeight vcout cs)%Q ->
  Forall (fun e : K * V => (0 < snd e <= 1)%Q)
         (normalized vcout (totalWeight vcout cs) cs).
Proof.
  intros Hpos Htot. unfold normalized. apply Forall_forall.
  intros e He. apply list_elem_of_fmap in He as (c & -> & Hc). cbn [snd].
  pose proof (weight_le_sum vcout cs c Hpos Hc) as Hle.
  assert (Hs : (fold_right Qplus 0 (map (weightOf vcout) cs) == totalWeight vcout cs)%Q).
  { unfold totalWeight. rewrite totalFrom_sum. ring. }
  rewrite Hs in Hle. rewrite Forall_forall in Hpos. specialize (Hpos c Hc).
  split.
  - apply Qlt_shift_div_l; [exact Htot|]. lra.
  - apply Qle_shift_div_r; [exact Htot|]. lra.
Qed.

(** X12.  On positive accumulated weights every returned labelset meets
    the labelset invariants: it has [L] slots, every coefficient lies
    between 0 and 1, and the coefficients sum to 1, also when nothing was
    touched and the vertex keeps its own label. *)
Theorem copraChooseCommunity_coefficients_bounded
    (L : nat) (u : K) (vcs : list K) (vcout : list V) (WTH : V) (a : Labelset) :
  inRange vcout vcs ->
  Forall (fun c => (0 < weightOf vcout c)%Q) vcs ->
  copraChooseCommunity L u vcs vcout WTH = Ok a ->
  length a = L
  /\ Forall (fun e : K * V => (0 <= snd e <= 1)%Q) a
  /\ (sumCoefficients a == 1)%Q.
Proof.
  intros Hin Hpos H.
  destruct (copraChooseCommunity_positive L u vcs vcout WTH a Hin Hpos H)
    as [HL [[-> ->]|(Hne & Htot & Hlen & ->)]].
  - split; [apply length_labelsetOf; cbn [length]; lia|]. split.
    + unfold labelsetOf. apply Forall_app. split.
      * repeat constructor; cbn [snd]; lra.
      * apply Forall_replicate. cbn [snd]. lra.
    + rewrite sumCoefficients_labelsetOf. unfold sumCoefficients. cbn. ring.
  - split; [apply length_labelsetOf; unfold normalized; rewrite length_map; exact Hlen|].
    split.
    + unfold labelsetOf. apply Forall_app. split.
      * eapply Forall_impl;
          [apply normalized_bounds; [apply candidates_subset; exact Hpos|exact Htot]|].
        intros e [? ?]. split; [lra|assumption].
      * apply Forall_replicate. cbn [snd]. lra.
    + rewrite sumCoefficients_labelsetOf. apply sumCoefficients_total. lra.
Qed.

Lemma copraChooseCommunity_coefficients_bounded_witness :
  copraChooseCommunity COPRA_LABELS 0 sampleTouched sampleWeights 1%Q
  = Ok (labelsetOf COPRA_LABELS [(1, 1 # 4); (2, 3 # 4)])
  /\ length (labelsetOf COPRA_LABELS [(1, 1 # 4); (2, 3 # 4)]) = COPRA_LABELS
  /\ Forall (fun e : K * V => (0 <= snd e <= 1)%Q)
            (labelsetOf COPRA_LABELS [(1, 1 # 4); (2, 3 # 4)])
  /\ (sumCoefficients (labelsetOf COPRA_LABELS [(1%nat, 1 # 4); (2%nat, 3 # 4)]) == 1)%Q.
Proof.
  assert (H : copraChooseCommunity COPRA_LABELS 0 sampleTouched sampleWeights 1%Q
              = Ok (labelsetOf COPRA_LABELS [(1, 1 # 4); (2, 3 # 4)])) by reflexivity.
  split; [exact H|].
  apply (copraChooseCommunity_coefficients_bounded COPRA_LABELS 0 sampleTouched
           sampleWeights 1%Q _); [| |exact H].
  - unfold inRange. repeat constructor.
  - repeat constructor.
Defined.

(** X13.  The primary community of the result: whenever the selector
    returns, slot 0 of the labelset holds the first touched community that
    reaches the threshold, or else the head of the touched list, or else,
    when nothing was touched, the vertex itself. *)
Theorem copraChooseCommunity_primary
    (L : nat) (u : K) (vcs : list K) (vcout : list V) (WTH : V) (a : Labelset) :
  inRange vcout vcs ->
  copraChooseCommunity L u vcs vcout WTH = Ok a ->
  primary [a] 0 = Ok (default u (head (candidates vcs vcout WTH))).
Proof.
  intros Hin H.
  rewrite (copraChooseCommunity_spec vcout WTH L u vcs Hin) in H. cbv zeta in H.
  destruct (Nat.eqb_spec L 0) as [HL|HL]; cbn [orb] in H; [discriminate|].
  destruct (L <? length (qualifying vcs vcout WTH)); [discriminate|].
  destruct (candidates vcs vcout WTH) as [|c cs].
  - injection H as <-. destruct L; [lia|]. reflexivity.
  - destruct (isZero (totalWeight vcout (c :: cs))); [discriminate|].
    injection H as <-. reflexivity.
Qed.

Lemma copraChooseCommunity_primary_witness :
  copraChooseCommunity COPRA_LABELS 0 sampleTouched sampleWeights 2%Q
  = Ok (labelsetOf COPRA_LABELS [(2, 3 # 3)])
  /\ primary [labelsetOf COPRA_LABELS [(2, 3 # 3)]] 0
     = Ok (default 0 (head (candidates sampleTouched sampleWeights 2%Q))).
Proof.
  assert (H : copraChooseCommunity COPRA_LABELS 0 sampleTouched sampleWeights 2%Q
              = Ok (labelsetOf COPRA_LABELS [(2, 3 # 3)])) by reflexivity.
  split; [exact H|].
  apply (copraChooseCommunity_primary COPRA_LABELS 0 sampleTouched sampleWeights 2%Q _);
    [|exact H].
  unfold inRange. repeat constructor.
Defined.

Lemma StronglySorted_append {A : Type} (R : A -> A -> Prop) (l1 l2 : list A) :
  StronglySorted R l1 -> StronglySorted R l2 ->
  (forall x y, x ∈ l1 -> y ∈ l2 -> R x y) ->
  StronglySorted R (l1 ++ l2).
Proof.
  induction 1 as [|x l1 Hs IH Hall]; intros H2 Hx; cbn [app]; [exact H2|].
  constructor.
  - apply IH; [exact H2|]. intros y z Hy Hz. apply Hx; [|exact Hz].
    apply list_elem_of_further, Hy.
  - apply Forall_app. split; [exact Hall|].
    apply Forall_forall. intros y Hy. apply Hx; [apply list_elem_of_here|exact Hy].
Qed.

Lemma sortedDescending_candidates (vcs : list K) (vcout : list V) (WTH : V) :
  sortedDescending vcout vcs -> sortedDescending vcout (candidates vcs vcout WTH).
Proof.
  unfold sortedDescending. intros Hs.
  assert (Hq : StronglySorted (fun c d => (weightOf vcout d <= weightOf vcout c)%Q)
                 (qualifying vcs vcout WTH)).
  { unfold qualifying. induction Hs as [|c vcs Hs IH Hall]; cbn [List.filter].
    - constructor.
    - destruct (meetsThreshold vcout WTH c); [|exact IH].
      constructor; [exact IH|].
      apply Forall_forall. intros d Hd. rewrite Forall_forall in Hall.
      apply Hall. apply list_elem_of_In in Hd. apply filter_In in Hd as [Hd _].
      apply list_elem_of_In. exact Hd. }
  unfold candidates. destruct (qualifying vcs vcout WTH) as [|q0 q]; [|exact Hq].
  destruct vcs as [|c vcs]; cbn [take]; [constructor|].
  rewrite take_0. repeat constructor.
Qed.

Lemma normalized_sorted (vcout : list V) (w : V) (cs : list K) :
  (0 < w)%Q ->
  sortedDescending vcout cs ->
  StronglySorted (fun e f : K * V => (snd f <= snd e)%Q) (normalized vcout w cs).
Proof.
  intros Hw. unfold sortedDescending, normalized.
  induction 1 as [|c cs Hs IH Hall]; cbn [map]; constructor; [exact IH|].
  apply Forall_forall. intros e He.
  apply list_elem_of_fmap in He as (d & -> & Hd). cbn [snd].
  rewrite Forall_forall in Hall. specialize (Hall d Hd). cbv beta in Hall.
  unfold Qdiv. apply Qmult_le_compat_r; [exact Hall|].
  apply Qlt_le_weak, Qinv_lt_0_compat, Hw.
Qed.

Lemma zeros_sorted (k : nat) :
  StronglySorted (fun e f : K * V => (snd f <= snd e)%Q) (replicate k (0, 0%Q)).
Proof.
  induction k as [|k IH]; cbn [replicate]; constructor; [exact IH|].
  apply Forall_replicate. cbn [snd]. lra.
Qed.

(** X14.  The selector keeps the order of the touched list: when the
    accumulated weights are positive and the touched list is ordered by
    descending weight, the coefficients of the returned labelset are in
    descending order, so slot 0 holds the largest coefficient. *)
Theorem copraChooseCommunity_keeps_descending_order
    (L : nat) (u : K) (vcs : list K) (vcout : list V) (WTH : V) (a : Labelset) :
  inRange vcout vcs ->
  Forall (fun c => (0 < weightOf vcout c)%Q) vcs ->
  sortedDescending vcout vcs ->
  copraChooseCommunity L u vcs vcout WTH = Ok a ->
  StronglySorted (fun e f : K * V => (snd f <= snd e)%Q) a.
Proof.
  intros Hin Hpos Hsorted H.
  destruct (copraChooseCommunity_positive L u vcs vcout WTH a Hin Hpos H)
    as [HL [[-> ->]|(Hne & Htot & Hlen & ->)]]; unfold labelsetOf.
  - apply StronglySorted_append; [repeat constructor|apply zeros_sorted|].
    intros x y Hx Hy. apply list_elem_of_singleton in Hx as ->.
    apply elem_of_replicate in Hy as [-> _]. cbn [snd]. lra.
  - apply StronglySorted_append.
    + apply normalized_sorted; [exact Htot|].
      apply sortedDescending_candidates, Hsorted.
    + apply zeros_sorted.
    + intros x y Hx Hy. apply elem_of_replicate in Hy as [-> _]. cbn [snd].
      pose proof (normalized_bounds vcout (candidates vcs vcout WTH)
                    (candidates_subset _ _ _ _ Hpos) Htot) as Hb.
      rewrite Forall_forall in Hb. destruct (Hb x Hx) as [? _]. lra.
Qed.

Lemma copraChooseCommunity_keeps_descending_order_witness :
  sortedDescending sampleWeights [2; 1]
  /\ copraChooseCommunity COPRA_LABELS 0 [2; 1] sampleWeights 1%Q
     = Ok (labelsetOf COPRA_LABELS [(2, 3 # 4); (1, 1 # 4)])
  /\ StronglySorted (fun e f : K * V => (snd f <= snd e)%Q)
       (labelsetOf COPRA_LABELS [(2, 3 # 4); (1, 1 # 4)]).
Proof.
  assert (Hs : sortedDescending sampleWeights [2; 1]).
  { unfold sortedDescending. repeat constructor. vm_compute. discriminate. }
  assert (H : copraChooseCommunity COPRA_LABELS 0 [2; 1] sampleWeights 1%Q
              = Ok (labelsetOf COPRA_LABELS [(2, 3 # 4); (1, 1 # 4)])) by reflexivity.
  split; [exact Hs|]. split; [exact H|].
  apply (copraChooseCommunity_keeps_descending_order COPRA_LABELS 0 [2; 1]
           sampleWeights 1%Q _); [| |exact Hs|exact H].
  - unfold inRange. repeat constructor.
  - repeat constructor.
Defined.

(** ** The comparator as an ordering *)

Lemma lxor_diag_bit (c : nat) : Nat.testbit (Nat.lxor c c) 1 = false.
Proof. rewrite Nat.lxor_nilpotent. apply Nat.bits_0. Qed.

(** X15.  In strict mode the comparator is a strict weak ordering of the
    communities that index [vcout]: it is irreflexive, asymmetric and
    transitive, and so is being incomparable. *)
Theorem fl_strict_is_strict_weak_order (vcout : list V) (c d e : K) (wc wd we : V) :
  vcout !! c = Some wc ->
  vcout !! d = Some wd ->
  vcout !! e = Some we ->
  fl true vcout c c = Ok false
  /\ (fl true vcout c d = Ok true -> fl true vcout d c = Ok false)
  /\ (fl true vcout c d = Ok true -> fl true vcout d e = Ok true ->
      fl true vcout c e = Ok true)
  /\ (fl true vcout c d = Ok false -> fl true vcout d c = Ok false ->
      fl true vcout d e = Ok false -> fl true vcout e d = Ok false ->
      fl true vcout c e = Ok false /\ fl true vcout e c = Ok false).
Proof.
  intros Hc Hd He.
  rewrite !(fl_lookup true _ _ _ _ _ Hc Hc), !(fl_lookup true _ _ _ _ _ Hc Hd),
    !(fl_lookup true _ _ _ _ _ Hd Hc), !(fl_lookup true _ _ _ _ _ Hd He),
    !(fl_lookup true _ _ _ _ _ He Hd), !(fl_lookup true _ _ _ _ _ Hc He),
    !(fl_lookup true _ _ _ _ _ He Hc).
  cbn [negb andb]. rewrite !orb_false_r.
  assert (Hinj : forall b b' : bool, Ok b = Ok b' <-> b = b').
  { intros b b'. split; [intros [= ->]; reflexivity|intros ->; reflexivity]. }
  rewrite !Hinj, !Qltb_lt, !Qltb_ge.
  repeat split; intros; lra.
Qed.

Lemma fl_strict_is_strict_weak_order_witness :
  sampleWeights !! 0 = Some 0%Q
  /\ sampleWeights !! 1 = Some 1%Q
  /\ sampleWeights !! 2 = Some 3%Q
  /\ fl true sampleWeights 0 0 = Ok false
  /\ (fl true sampleWeights 0 1 = Ok true -> fl true sampleWeights 1 0 = Ok false)
  /\ (fl true sampleWeights 0 1 = Ok true -> fl true sampleWeights 1 2 = Ok true ->
      fl true sampleWeights 0 2 = Ok true)
  /\ (fl true sampleWeights 0 1 = Ok false -> fl true sampleWeights 1 0 = Ok false ->
      fl true sampleWeights 1 2 = Ok false -> fl true sampleWeights 2 1 = Ok false ->
      fl true sampleWeights 0 2 = Ok false /\ fl true sampleWeights 2 0 = Ok false).
Proof.
  split; [reflexivity|]. split; [reflexivity|]. split; [reflexivity|].
  apply (fl_strict_is_strict_weak_order sampleWeights 0 1 2 0%Q 1%Q 3%Q); reflexivity.
Defined.

(** X16.  With strict mode off the comparator is still irreflexive, but on
    equal weights it is symmetric: when bit 1 of [c XOR d] is set it holds
    in both directions, so it is not an ordering of the communities. *)
Theorem fl_tie_break_is_symmetric (vcout : list V) (c d : K) (wc wd : V) :
  vcout !! c = Some wc ->
  vcout !! d = Some wd ->
  (wc == wd)%Q ->
  fl false vcout c c = Ok false
  /\ fl false vcout c d = fl false vcout d c
  /\ (Nat.testbit (Nat.lxor c d) 1 = true ->
      fl false vcout c d = Ok true /\ fl false vcout d c = Ok true).
Proof.
  intros Hc Hd E.
  rewrite (fl_lookup false _ _ _ _ _ Hc Hc), (fl_lookup false _ _ _ _ _ Hc Hd),
    (fl_lookup false _ _ _ _ _ Hd Hc).
  assert (H1 : Qltb wc wd = false) by (apply Qltb_ge; lra).
  assert (H2 : Qltb wd wc = false) by (apply Qltb_ge; lra).
  assert (H0 : Qltb wc wc = false) by (apply Qltb_ge; lra).
  assert (H3 : Qeq_bool wc wd = true) by (apply Qeq_bool_iff; exact E).
  assert (H4 : Qeq_bool wd wc = true) by (apply Qeq_bool_iff; symmetry; exact E).
  rewrite H0, H1, H2, H3, H4, lxor_diag_bit, (Nat.lxor_comm d c).
  cbn [negb andb orb]. rewrite andb_false_r.
  split; [reflexivity|]. split; [reflexivity|]. intros ->. auto.
Qed.

Lemma fl_tie_break_is_symmetric_witness :
  [1; 1; 1]%Q !! 0 = Some 1%Q
  /\ [1; 1; 1]%Q !! 2 = Some 1%Q
  /\ (1 == 1)%Q
  /\ fl false [1; 1; 1]%Q 0 0 = Ok false
  /\ fl false [1; 1; 1]%Q 0 2 = fl false [1; 1; 1]%Q 2 0
  /\ (Nat.testbit (Nat.lxor 0 2) 1 = true ->
      fl false [1; 1; 1]%Q 0 2 = Ok true /\ fl false [1; 1; 1]%Q 2 0 = Ok true).
Proof.
  split; [reflexivity|]. split; [reflexivity|]. split; [reflexivity|].
  apply (fl_tie_break_is_symmetric [1; 1; 1]%Q 0 2 1%Q 1%Q); reflexivity.
Defined.

(** ** The loops of the detectors *)

(** X17.  The inner loop of delta-screening consumes a maximal run: it
    returns the batch split into the insertions it went through, all with
    source [u], and the rest, which does not start with an insertion of
    source [u]; the scratch table keeps its length on the way. *)
Theorem scanRun_takes_maximal_run (u : K) (vcom : list Labelset)
    (ins rest : list (K * K * V)) (s s' : Scan) :
  scanRun u ins s vcom = Ok (s', rest) ->
  (exists run, ins = run ++ rest /\ Forall (fun i => fst (fst i) = u) run)
  /\ (forall i, head rest = Some i -> fst (fst i) <> u)
  /\ length (snd s') = length (snd s).
Proof.
  revert s. induction ins as [|[[u' v] w] ins IH]; intros s H; cbn [scanRun] in H.
  - injection H as <- <-. split; [exists []; split; [reflexivity|constructor]|].
    split; [discriminate|reflexivity].
  - destruct (Nat.eqb_spec u' u) as [->|Hne].
    + inv_bind H as cu Hcu H. inv_bind H as cv Hcv H.
      assert (Hrec : exists s1, scanRun u ins s1 vcom = Ok (s', rest)
                                /\ length (snd s1) = length (snd s)).
      { destruct (cu =? cv); [exists s; auto|].
        inv_bind H as s1 Hs1 H. exists s1. split; [exact H|].
        apply copraScanCommunity_keeps in Hs1. apply Hs1. }
      destruct Hrec as (s1 & Hrun & Hlen).
      destruct (IH _ Hrun) as ((run & -> & Hall) & Hhead & Hl).
      split; [|split; [exact Hhead|congruence]].
      exists ((u, v, w) :: run). split; [reflexivity|].
      constructor; [reflexivity|exact Hall].
    + injection H as <- <-. split; [exists []; split; [reflexivity|constructor]|].
      split; [|reflexivity]. intros i [= <-]. exact Hne.
Qed.

Lemma scanRun_takes_maximal_run_witness :
  scanRun 0 [(0, 1, 1%Q); (0, 2, 5%Q); (2, 0, 5%Q)] ([], [0; 0; 0]%Q)
          (ownCommunities COPRA_LABELS 3)
  = Ok (([0], [0 + 1 * 1 + 5 * 1; 0; 0]%Q), [(2, 0, 5%Q)])
  /\ (exists run, [(0, 1, 1%Q); (0, 2, 5%Q); (2, 0, 5%Q)] = run ++ [(2, 0, 5%Q)]
                  /\ Forall (fun i : K * K * V => fst (fst i) = 0) run)
  /\ (forall i : K * K * V, head [(2, 0, 5%Q)] = Some i -> fst (fst i) <> 0)
  /\ length (snd ([0], [0 + 1 * 1 + 5 * 1; 0; 0]%Q))
     = length (snd (([] : list nat), [0; 0; 0]%Q)).
Proof.
  assert (H : scanRun 0 [(0, 1, 1%Q); (0, 2, 5%Q); (2, 0, 5%Q)] ([], [0; 0; 0]%Q)
                      (ownCommunities COPRA_LABELS 3)
              = Ok (([0], [0 + 1 * 1 + 5 * 1; 0; 0]%Q), [(2, 0, 5%Q)])) by reflexivity.
  split; [exact H|].
  apply (scanRun_takes_maximal_run 0 (ownCommunities COPRA_LABELS 3) _ _ _ _ H).
Defined.

(** A loop whose step either leaves the flags alone or sets the flag of
    [key b], according to [cond b]. *)
Lemma foldM_mark {B : Type} (f : list bool -> B -> result (list bool))
    (cond : B -> bool) (key : B -> nat) :
  (forall vs b vs', f vs b = Ok vs' ->
     (cond b = true /\ key b < length vs /\ vs' = <[key b := true]> vs)
     \/ (cond b = false /\ vs' = vs)) ->
  forall (l : list B) (vs vs' : list bool),
  foldM f l vs = Ok vs' ->
  length vs' = length vs
  /\ forall i, vs' !! i = Some true
               <-> vs !! i = Some true \/ exists b, b ∈ l /\ cond b = true /\ key b = i.
Proof.
  intros Hstep l. induction l as [|b l IH]; intros vs vs' H; cbn [foldM] in H.
  - injection H as <-. split; [reflexivity|]. intros i. split; [auto|].
    intros [?|(b & Hb & _)]; [assumption|inversion Hb].
  - inv_bind H as vs1 H1 H. apply IH in H as [Hlen Hiff].
    destruct (Hstep _ _ _ H1) as [(Hc & Hk & ->)|(Hc & ->)].
    + rewrite length_insert in Hlen. split; [exact Hlen|].
      intros i. rewrite Hiff. split.
      * intros [Hi|(b' & Hb' & Hc' & Hk')].
        -- destruct (decide (key b = i)) as [E|NE].
           ++ right. exists b. split; [apply list_elem_of_here|auto].
           ++ left. rewrite list_lookup_insert_ne in Hi by exact NE. exact Hi.
        -- right. exists b'. split; [apply list_elem_of_further, Hb'|auto].
      * intros [Hi|(b' & Hb' & Hc' & Hk')].
        -- left. destruct (decide (key b = i)) as [<-|NE].
           ++ apply list_lookup_insert_eq. exact Hk.
           ++ rewrite list_lookup_insert_ne by exact NE. exact Hi.
        -- apply elem_of_cons in Hb' as [->|Hb'].
           ++ left. subst i. apply list_lookup_insert_eq. exact Hk.
           ++ right. exists b'. auto.
    + split; [exact Hlen|]. intros i. rewrite Hiff. split.
      * intros [Hi|(b' & Hb' & Hc' & Hk')]; [left; exact Hi|].
        right. exists b'. split; [apply list_elem_of_further, Hb'|auto].
      * intros [Hi|(b' & Hb' & Hc' & Hk')]; [left; exact Hi|].
        apply elem_of_cons in Hb' as [->|Hb']; [congruence|].
        right. exists b'. auto.
Qed.

Lemma frontierDeletion_step (vcom : list Labelset) (vs vs' : list bool) (d : K * K) :
  frontierDeletion vcom vs d = Ok vs' ->
  (sameCommunity vcom d = true /\ fst d < length vs /\ vs' = <[fst d := true]> vs)
  \/ (sameCommunity vcom d = false /\ vs' = vs).
Proof.
  destruct d as [u v]. unfold frontierDeletion, sameCommunity. cbn [fst snd].
  intros H. inv_bind H as cu Hcu H. inv_bind H as cv Hcv H. rewrite Hcu, Hcv.
  destruct (cu =? cv); cbn [negb] in H.
  - left. apply wr_Ok in H as [Hlt ->]. auto.
  - right. injection H as <-. auto.
Qed.

Lemma frontierInsertion_step (vcom : list Labelset) (vs vs' : list bool)
    (i : K * K * V) :
  frontierInsertion vcom vs i = Ok vs' ->
  (differentCommunity vcom i = true /\ fst (fst i) < length vs
   /\ vs' = <[fst (fst i) := true]> vs)
  \/ (differentCommunity vcom i = false /\ vs' = vs).
Proof.
  destruct i as [[u v] w]. unfold frontierInsertion, differentCommunity. cbn [fst snd].
  intros H. inv_bind H as cu Hcu H. inv_bind H as cv Hcv H. rewrite Hcu, Hcv.
  destruct (cu =? cv); cbn [negb].
  - right. injection H as <-. auto.
  - left. apply wr_Ok in H as [Hlt ->]. auto.
Qed.

Lemma frontier_flags (x : Graph) (deletions : list (K * K))
    (insertions : list (K * K * V)) (vcom : list Labelset) (flags : list bool) :
  copraAffectedVerticesFrontier x deletions insertions vcom = Ok flags ->
  length flags = span x
  /\ forall i, flags !! i = Some true
       <-> (exists d, d ∈ deletions /\ sameCommunity vcom d = true /\ fst d = i)
           \/ (exists e, e ∈ insertions /\ differentCommunity vcom e = true
                         /\ fst (fst e) = i).
Proof.
  unfold copraAffectedVerticesFrontier. cbv zeta. intros H.
  inv_bind H as vs1 Hd H.
  apply (foldM_mark _ (sameCommunity vcom) fst
           (fun vs b vs' => frontierDeletion_step vcom vs vs' b)) in Hd
    as [Hl1 Hd].
  apply (foldM_mark _ (differentCommunity vcom) (fun e => fst (fst e))
           (fun vs b vs' => frontierInsertion_step vcom vs vs' b)) in H as [Hl2 Hi].
  rewrite length_replicate in Hl1. split; [congruence|].
  intros i. rewrite Hi, Hd. split.
  - intros [[Hinit|?]|?]; [|auto|auto].
    apply lookup_replicate in Hinit as [? _]. discriminate.
  - intros [?|?]; auto.
Qed.

(** X18.  The frontier detector returns one flag per index below the span,
    and flags exactly the sources of the deletions whose endpoints share
    their primary community and the sources of the insertions whose
    endpoints have different primary communities; destinations, weights and
    the edges of the graph play no part. *)
Theorem copraAffectedVerticesFrontier_flags_sources (x : Graph)
    (deletions : list (K * K)) (insertions : list (K * K * V))
    (vcom : list Labelset) (flags : list bool) :
  copraAffectedVerticesFrontier x deletions insertions vcom = Ok flags ->
  length flags = span x
  /\ forall i, flags !! i = Some true
       <-> (exists d, d ∈ deletions /\ sameCommunity vcom d = true /\ fst d = i)
           \/ (exists e, e ∈ insertions /\ differentCommunity vcom e = true
                         /\ fst (fst e) = i).
Proof. apply frontier_flags. Qed.

Lemma copraAffectedVerticesFrontier_flags_sources_witness :
  copraAffectedVerticesFrontier twoPairsGraph deletedEdge [(1, 2, 1%Q)]
    twoPairsCommunities
  = Ok [true; true; false; false]
  /\ length [true; true; false; false] = span twoPairsGraph
  /\ forall i, [true; true; false; false] !! i = Some true
       <-> (exists d, d ∈ deletedEdge /\ sameCommunity twoPairsCommunities d = true
                      /\ fst d = i)
           \/ (exists e, e ∈ [(1, 2, 1%Q)]
                         /\ differentCommunity twoPairsCommunities e = true
                         /\ fst (fst e) = i).
Proof.
  assert (H : copraAffectedVerticesFrontier twoPairsGraph deletedEdge [(1, 2, 1%Q)]
                twoPairsCommunities
              = Ok [true; true; false; false]) by reflexivity.
  split; [exact H|].
  apply (copraAffectedVerticesFrontier_flags_sources twoPairsGraph deletedEdge
           [(1, 2, 1%Q)] twoPairsCommunities _ H).
Defined.

Lemma sameCommunity_true (vcom : list Labelset) (d : K * K) :
  sameCommunity vcom d = true <->
  exists c, primary vcom (fst d) = Ok c /\ primary vcom (snd d) = Ok c.
Proof.
  unfold sameCommunity. split.
  - destruct (primary vcom (fst d)) as [cu| | |]; try discriminate.
    destruct (primary vcom (snd d)) as [cv| | |]; try discriminate.
    intros H. apply Nat.eqb_eq in H as ->. eauto.
  - intros (c & -> & ->). apply Nat.eqb_refl.
Qed.

Lemma markChanged_inv (fs fs' : Flags) (u c : K) :
  markChanged fs u c = Ok fs' ->
  vertices fs' = <[u := true]> (vertices fs)
  /\ neighbors fs' = <[u := true]> (neighbors fs)
  /\ communities fs' = <[c := true]> (communities fs).
Proof.
  unfold markChanged. intros H.
  inv_bind H as vs Hv H. inv_bind H as ns Hn H. inv_bind H as cs Hc H.
  injection H as <-. apply wr_Ok in Hv as [_ ->], Hn as [_ ->], Hc as [_ ->].
  auto.
Qed.

Lemma lookup_insert_true (l : list bool) (i j : nat) :
  <[j := true]> l !! i = Some true -> i = j \/ l !! i = Some true.
Proof.
  intros H. destruct (decide (j = i)) as [->|Hne]; [auto|].
  rewrite list_lookup_insert_ne in H by exact Hne. auto.
Qed.

(** Where the marks of the deletion loop come from. *)
Lemma screenDeletions_origin (vcom : list Labelset) (dels : list (K * K)) :
  forall fs fs', screenDeletions vcom dels fs = Ok fs' ->
  forall i,
    (vertices fs' !! i = Some true ->
     vertices fs !! i = Some true
     \/ exists d, d ∈ dels /\ sameCommunity vcom d = true /\ fst d = i)
    /\ (neighbors fs' !! i = Some true ->
        neighbors fs !! i = Some true
        \/ exists d, d ∈ dels /\ sameCommunity vcom d = true /\ fst d = i)
    /\ (communities fs' !! i = Some true ->
        communities fs !! i = Some true
        \/ exists d, d ∈ dels /\ sameCommunity vcom d = true
                     /\ primary vcom (snd d) = Ok i).
Proof.
  unfold screenDeletions.
  induction dels as [|[u v] dels IH]; intros fs fs' H i; cbn [foldM] in H.
  - injection H as <-. auto.
  - inv_bind H as fs1 Hd H. destruct (IH _ _ H i) as (IV & IN & IC).
    assert (Hlater : forall P : K * K -> Prop,
               (exists d, d ∈ dels /\ sameCommunity vcom d = true /\ P d) ->
               exists d, d ∈ (u, v) :: dels /\ sameCommunity vcom d = true /\ P d).
    { intros P (d & Hel & Hs & HP). exists d.
      split; [apply list_elem_of_further, Hel|auto]. }
    apply screenDeletion_Ok in Hd as (cu & cv & Hcu & Hcv & Hne & Heq).
    destruct (decide (cu = cv)) as [E|NE].
    + subst cv. specialize (Heq eq_refl).
      apply markChanged_inv in Heq as (EV & EN & EC).
      assert (Hsame : sameCommunity vcom (u, v) = true).
      { apply sameCommunity_true. exists cu. auto. }
      assert (Hhere : forall P : K * K -> Prop, P (u, v) ->
                 exists d, d ∈ (u, v) :: dels /\ sameCommunity vcom d = true /\ P d).
      { intros P HP. exists (u, v). split; [apply list_elem_of_here|auto]. }
      split; [|split].
      * intros Hi. destruct (IV Hi) as [Hi1|Hex];
          [|right; apply (Hlater (fun d => fst d = i)), Hex].
        rewrite EV in Hi1. apply lookup_insert_true in Hi1 as [->|?]; [|auto].
        right. apply (Hhere (fun d => fst d = u)). reflexivity.
      * intros Hi. destruct (IN Hi) as [Hi1|Hex];
          [|right; apply (Hlater (fun d => fst d = i)), Hex].
        rewrite EN in Hi1. apply lookup_insert_true in Hi1 as [->|?]; [|auto].
        right. apply (Hhere (fun d => fst d = u)). reflexivity.
      * intros Hi. destruct (IC Hi) as [Hi1|Hex];
          [|right; apply (Hlater (fun d => primary vcom (snd d) = Ok i)), Hex].
        rewrite EC in Hi1. apply lookup_insert_true in Hi1 as [->|?]; [|auto].
        right. apply (Hhere (fun d => primary vcom (snd d) = Ok cu)). exact Hcv.
    + rewrite (Hne NE) in *. split; [|split]; intros Hi.
      * destruct (IV Hi) as [?|Hex]; [auto|].
        right. apply (Hlater (fun d => fst d = i)), Hex.
      * destruct (IN Hi) as [?|Hex]; [auto|].
        right. apply (Hlater (fun d => fst d = i)), Hex.
      * destruct (IC Hi) as [?|Hex]; [auto|].
        right. apply (Hlater (fun d => primary vcom (snd d) = Ok i)), Hex.
Qed.

Lemma markNeighbors_origin (x : Graph) (u : K) (vs vs' : list bool) (t : nat) :
  markNeighbors x u vs = Ok vs' ->
  vs' !! t = Some true ->
  vs !! t = Some true \/ t ∈ map fst (edges x u).
Proof.
  unfold markNeighbors. intros H.
  apply (foldM_mark _ (fun _ : K * V => true) fst) in H as [_ Hiff].
  - intros Ht. apply Hiff in Ht as [?|(e & He & _ & <-)]; [auto|].
    right. apply list_elem_of_fmap. eauto.
  - intros a e a' Hw. left. apply wr_Ok in Hw as [Hlt ->]. auto.
Qed.

Lemma propagate_origin (x : Graph) (vcom : list Labelset) (ns cs : list bool)
    (vs vs' : list bool) (u : K) (t : nat) :
  propagate x vcom ns cs vs u = Ok vs' ->
  vs' !! t = Some true ->
  vs !! t = Some true
  \/ (ns !! u = Some true /\ t ∈ map fst (edges x u))
  \/ (t = u /\ exists c, primary vcom u = Ok c /\ cs !! c = Some true).
Proof.
  unfold propagate. intros H Ht.
  inv_bind H as cu Hcu H. inv_bind H as nu Hnu H.
  inv_bind H as vs1 Hvs1 H. inv_bind H as ccu Hccu H.
  apply rd_Ok in Hnu, Hccu.
  assert (H1 : vs1 !! t = Some true ->
               vs !! t = Some true \/ (ns !! u = Some true /\ t ∈ map fst (edges x u))).
  { intros H1. destruct nu.
    - destruct (markNeighbors_origin _ _ _ _ _ Hvs1 H1); auto.
    - injection Hvs1 as <-. auto. }
  destruct ccu.
  - apply wr_Ok in H as [_ ->]. apply lookup_insert_true in Ht as [->|Ht].
    + right. right. split; [reflexivity|]. eauto.
    + destruct (H1 Ht); auto.
  - injection H as <-. destruct (H1 Ht); auto.
Qed.

Lemma propagateAll_origin (x : Graph) (vcom : list Labelset) (ns cs : list bool)
    (keys : list K) :
  forall (vs flags : list bool) (t : nat),
  foldM (propagate x vcom ns cs) keys vs = Ok flags ->
  flags !! t = Some true ->
  vs !! t = Some true
  \/ (exists u, u ∈ keys /\ ns !! u = Some true /\ t ∈ map fst (edges x u))
  \/ (t ∈ keys /\ exists c, primary vcom t = Ok c /\ cs !! c = Some true).
Proof.
  induction keys as [|u keys IH]; intros vs flags t H Ht; cbn [foldM] in H.
  - injection H as <-. auto.
  - inv_bind H as vs1 H1 H.
    destruct (IH _ _ _ H Ht) as [Hv|[(u' & Hu' & Hn & He)|(Hk & Hc)]].
    + destruct (propagate_origin _ _ _ _ _ _ _ _ H1 Hv) as [?|[(Hn & He)|(-> & Hc)]].
      * auto.
      * right. left. exists u. split; [apply list_elem_of_here|auto].
      * right. right. split; [apply list_elem_of_here|exact Hc].
    + right. left. exists u'. split; [apply list_elem_of_further, Hu'|auto].
    + right. right. split; [apply list_elem_of_further, Hk|exact Hc].
Qed.

Lemma markChanged_length (fs fs' : Flags) (u c : K) :
  markChanged fs u c = Ok fs' -> length (vertices fs') = length (vertices fs).
Proof.
  intros H. apply markChanged_inv in H as (-> & _ & _). apply length_insert.
Qed.

Lemma screenDeletions_length (vcom : list Labelset) (dels : list (K * K))
    (fs fs' : Flags) :
  screenDeletions vcom dels fs = Ok fs' ->
  length (vertices fs') = length (vertices fs).
Proof.
  unfold screenDeletions. intros H.
  apply (foldM_preserves (screenDeletion vcom)
           (fun a b => length (vertices b) = length (vertices a))
           (fun a => eq_refl) (fun a b c H1 H2 => eq_trans H2 H1)) in H; [exact H|].
  intros a [u v] a' Hd.
  apply screenDeletion_Ok in Hd as (cu & cv & _ & _ & Hne & Heq).
  destruct (decide (cu = cv)) as [E|NE].
  - eapply markChanged_length, Heq, E.
  - rewrite (Hne NE). reflexivity.
Qed.

Lemma screenInsertions_length (L : nat) (vcom : list Labelset) (vtot : list V)
    (B : V) (fuel : nat) :
  forall (ins : list (K * K * V)) (s : Scan) (fs fs' : Flags),
  screenInsertions fuel L vcom vtot B ins s fs = Ok fs' ->
  length (vertices fs') = length (vertices fs).
Proof.
  induction fuel as [|fuel IH]; intros ins s fs fs' H.
  - destruct ins as [|[[u v] w] ins]; cbn in H; [|discriminate].
    injection H as <-. reflexivity.
  - destruct ins as [|[[u v] w] ins]; cbn [screenInsertions] in H.
    + injection H as <-. reflexivity.
    + inv_bind H as s0 Hclear H. inv_bind H as run Hrun H.
      destruct run as [s1 rest].
      inv_bind H as t Ht H. inv_bind H as ls Hls H.
      inv_bind H as cu Hcu H. inv_bind H as e He H.
      destruct (fst e =? cu).
      * eapply IH. exact H.
      * inv_bind H as fs1 Hmark H. apply markChanged_length in Hmark.
        apply IH in H. congruence.
Qed.

Lemma propagateAll_length (x : Graph) (vcom : list Labelset) (fs : Flags)
    (flags : list bool) :
  propagateAll x vcom fs = Ok flags -> length flags = length (vertices fs).
Proof.
  unfold propagateAll. intros H.
  apply (foldM_preserves _ (fun a b : list bool => length b = length a)
           (fun a => eq_refl) (fun a b c H1 H2 => eq_trans H2 H1)) in H; [exact H|].
  intros vs u vs' Hp. unfold propagate in Hp.
  inv_bind Hp as cu Hcu Hp. inv_bind Hp as nu Hnu Hp.
  inv_bind Hp as vs1 Hvs1 Hp. inv_bind Hp as ccu Hccu Hp.
  assert (H1 : length vs1 = length vs).
  { destruct nu; [|injection Hvs1 as <-; reflexivity].
    unfold markNeighbors in Hvs1.
    apply (foldM_preserves _ (fun a b : list bool => length b = length a)
             (fun a => eq_refl) (fun a b c H1 H2 => eq_trans H2 H1)) in Hvs1;
      [exact Hvs1|].
    intros a e a' Hw. apply wr_Ok in Hw as [_ ->]. apply length_insert. }
  destruct ccu.
  - apply wr_Ok in Hp as [_ ->]. rewrite length_insert. exact H1.
  - injection Hp as <-. exact H1.
Qed.

(** X19.  Whenever delta-screening returns, for any batch, its flag vector
    has one flag per index below the span. *)
Theorem copraAffectedVerticesDeltaScreening_length (L : nat) (x : Graph)
    (deletions : list (K * K)) (insertions : list (K * K * V))
    (vcom : list Labelset) (vtot : list V) (B : V) (flags : list bool) :
  copraAffectedVerticesDeltaScreening L x deletions insertions vcom vtot B = Ok flags ->
  length flags = span x.
Proof.
  unfold copraAffectedVerticesDeltaScreening. cbv zeta. intros H.
  inv_bind H as fs1 Hdel H. inv_bind H as fs2 Hins H.
  apply screenDeletions_length in Hdel. apply screenInsertions_length in Hins.
  apply propagateAll_length in H. cbn [vertices] in Hdel.
  rewrite length_replicate in Hdel. congruence.
Qed.

Lemma copraAffectedVerticesDeltaScreening_length_witness :
  copraAffectedVerticesDeltaScreening COPRA_LABELS triangleGraph deletedEdge
    insertedEdge (ownCommunities COPRA_LABELS 3) [6; 2; 6]%Q (1 # 10)
  = Ok [false; false; false]
  /\ length [false; false; false] = span triangleGraph.
Proof.
  assert (H : copraAffectedVerticesDeltaScreening COPRA_LABELS triangleGraph
                deletedEdge insertedEdge (ownCommunities COPRA_LABELS 3)
                [6; 2; 6]%Q (1 # 10)
              = Ok [false; false; false]) by reflexivity.
  split; [exact H|].
  apply (copraAffectedVerticesDeltaScreening_length COPRA_LABELS triangleGraph
           deletedEdge insertedEdge (ownCommunities COPRA_LABELS 3)
           [6; 2; 6]%Q (1 # 10) _ H).
Defined.

(** X20.  For a batch of deletions without insertions, delta-screening
    flags exactly the vertices reached from a deletion whose endpoints share
    their primary community: its source, the neighbours of its source when
    the source is a vertex of the graph, and the vertices of the graph
    whose primary community is that of its endpoints.  No other vertex is
    flagged. *)
Theorem copraAffectedVerticesDeltaScreening_deletions_exact (L : nat) (x : Graph)
    (deletions : list (K * K)) (vcom : list Labelset) (vtot : list V) (B : V)
    (flags : list bool) :
  copraAffectedVerticesDeltaScreening L x deletions [] vcom vtot B = Ok flags ->
  forall t, flags !! t = Some true
    <-> exists d, d ∈ deletions /\ sameCommunity vcom d = true
         /\ (fst d = t
             \/ (fst d ∈ vertexKeys x /\ t ∈ map fst (edges x (fst d)))
             \/ (t ∈ vertexKeys x /\ primary vcom t = primary vcom (snd d))).
Proof.
  unfold copraAffectedVerticesDeltaScreening. cbv zeta. intros H.
  inv_bind H as fs1 Hdel H. cbn [length screenInsertions bind] in H.
  intros t. split.
  - intros Ht. unfold propagateAll in H.
    destruct (propagateAll_origin _ _ _ _ _ _ _ _ H Ht)
      as [Hv|[(u & Hu & Hn & He)|(Hk & c & Hc & Hcs)]].
    + destruct (screenDeletions_origin _ _ _ _ Hdel t) as (IV & _ & _).
      destruct (IV Hv) as [Hinit|(d & Hd & Hs & <-)].
      * apply lookup_replicate in Hinit as [? _]. discriminate.
      * exists d. auto.
    + destruct (screenDeletions_origin _ _ _ _ Hdel u) as (_ & IN & _).
      destruct (IN Hn) as [Hinit|(d & Hd & Hs & <-)].
      * apply lookup_replicate in Hinit as [? _]. discriminate.
      * exists d. split; [exact Hd|]. split; [exact Hs|]. right. left. auto.
    + destruct (screenDeletions_origin _ _ _ _ Hdel c) as (_ & _ & IC).
      destruct (IC Hcs) as [Hinit|(d & Hd & Hs & Hp)].
      * apply lookup_replicate in Hinit as [? _]. discriminate.
      * exists d. split; [exact Hd|]. split; [exact Hs|].
        right. right. split; [exact Hk|congruence].
  - intros (d & Hd & Hs & Hcase).
    apply sameCommunity_true in Hs as (c & Hu & Hv).
    pose proof (screenDeletions_marks _ _ _ _ Hdel d Hd c Hu Hv) as (M1 & M2 & M3).
    apply propagateAll_Ok in H as [Hinc Hprop].
    destruct Hcase as [<-|[(Hk & He)|(Hk & Hp)]].
    + apply Hinc, M1.
    + destruct (Hprop _ Hk) as [P1 _]. apply P1; assumption.
    + destruct (Hprop _ Hk) as [_ P2]. apply (P2 c); [congruence|exact M3].
Qed.

Lemma copraAffectedVerticesDeltaScreening_deletions_exact_witness :
  copraAffectedVerticesDeltaScreening COPRA_LABELS twoPairsGraph deletedEdge []
    twoPairsCommunities [1; 1; 1; 1]%Q (1 # 10)
  = Ok [true; true; false; false]
  /\ forall t, [true; true; false; false] !! t = Some true
       <-> exists d, d ∈ deletedEdge /\ sameCommunity twoPairsCommunities d = true
            /\ (fst d = t
                \/ (fst d ∈ vertexKeys twoPairsGraph
                    /\ t ∈ map fst (edges twoPairsGraph (fst d)))
                \/ (t ∈ vertexKeys twoPairsGraph
                    /\ primary twoPairsCommunities t
                       = primary twoPairsCommunities (snd d))).
Proof.
  assert (H : copraAffectedVerticesDeltaScreening COPRA_LABELS twoPairsGraph
                deletedEdge [] twoPairsCommunities [1; 1; 1; 1]%Q (1 # 10)
              = Ok [true; true; false; false]) by reflexivity.
  split; [exact H|].
  apply (copraAffectedVerticesDeltaScreening_deletions_exact COPRA_LABELS
           twoPairsGraph deletedEdge twoPairsCommunities [1; 1; 1; 1]%Q (1 # 10) _ H).
Defined.

(** X21.  How the two detectors compare on one batch: every vertex that
    the frontier detector flags and delta-screening does not is the source
    of an insertion between different primary communities; every flag that
    the frontier detector sets for a deletion is also set by
    delta-screening. *)
Theorem frontier_flags_beyond_delta_screening (L : nat) (x : Graph)
    (deletions : list (K * K)) (insertions : list (K * K * V))
    (vcom : list Labelset) (vtot : list V) (B : V) (f g : list bool) :
  copraAffectedVerticesFrontier x deletions insertions vcom = Ok f ->
  copraAffectedVerticesDeltaScreening L x deletions insertions vcom vtot B = Ok g ->
  forall i, f !! i = Some true ->
    g !! i = Some true
    \/ exists e, e ∈ insertions /\ differentCommunity vcom e = true /\ fst (fst e) = i.
Proof.
  intros Hf Hg i Hi.
  apply frontier_flags in Hf as [_ Hiff]. apply Hiff in Hi as [(d & Hd & Hs & <-)|Hi];
    [left|right; exact Hi].
  unfold copraAffectedVerticesDeltaScreening in Hg. cbv zeta in Hg.
  inv_bind Hg as fs1 Hdel Hg. inv_bind Hg as fs2 Hins Hg.
  apply sameCommunity_true in Hs as (c & Hu & Hv).
  pose proof (screenDeletions_marks _ _ _ _ Hdel d Hd c Hu Hv) as (M1 & _ & _).
  apply screenInsertions_included in Hins as (I1 & _ & _).
  apply propagateAll_Ok in Hg as [Hinc _].
  apply Hinc, I1, M1.
Qed.

Lemma frontier_flags_beyond_delta_screening_witness :
  copraAffectedVerticesFrontier twoPairsGraph deletedEdge insertedEdge
    twoPairsCommunities
  = Ok [true; true; true; false]
  /\ copraAffectedVerticesDeltaScreening COPRA_LABELS twoPairsGraph deletedEdge
       insertedEdge twoPairsCommunities [1; 1; 1; 1]%Q (1 # 10)
     = Ok [true; true; false; false]
  /\ forall i, [true; true; true; false] !! i = Some true ->
       [true; true; false; false] !! i = Some true
       \/ exists e, e ∈ insertedEdge
            /\ differentCommunity twoPairsCommunities e = true
            /\ fst (fst e) = i.
Proof.
  assert (Hf : copraAffectedVerticesFrontier twoPairsGraph deletedEdge insertedEdge
                 twoPairsCommunities
               = Ok [true; true; true; false]) by reflexivity.
  assert (Hg : copraAffectedVerticesDeltaScreening COPRA_LABELS twoPairsGraph
                 deletedEdge insertedEdge twoPairsCommunities
                 [1; 1; 1; 1]%Q (1 # 10)
               = Ok [true; true; false; false]) by reflexivity.
  split; [exact Hf|]. split; [exact Hg|].
  apply (frontier_flags_beyond_delta_screening COPRA_LABELS twoPairsGraph deletedEdge
           insertedEdge twoPairsCommunities [1; 1; 1; 1]%Q (1 # 10) _ _ Hf Hg).
Defined.

Lemma delta_screening_deletions_return_witness :
  wellFormed twoPairsGraph twoPairsCommunities
  /\ edgesInRange twoPairsGraph
  /\ deletionsInRange twoPairsGraph twoPairsCommunities deletedEdge
  /\ exists flags,
       copraAffectedVerticesDeltaScreening COPRA_LABELS twoPairsGraph deletedEdge []
         twoPairsCommunities [1; 1; 1; 1]%Q (1 # 10) = Ok flags
       /\ length flags = span twoPairsGraph.
Proof.
  assert (Hw : wellFormed twoPairsGraph twoPairsCommunities).
  { unfold wellFormed. cbn [vertexKeys twoPairsGraph span].
    repeat constructor; eexists; (split; [reflexivity|cbn; lia]). }
  assert (He : edgesInRange twoPairsGraph).
  { unfold edgesInRange. cbn. repeat constructor. }
  assert (Hd : deletionsInRange twoPairsGraph twoPairsCommunities deletedEdge).
  { unfold deletionsInRange, deletedEdge. cbn [span twoPairsGraph fst snd].
    repeat constructor; do 2 eexists;
      (split; [reflexivity|split; [reflexivity|cbn; lia]]). }
  split; [exact Hw|]. split; [exact He|]. split; [exact Hd|].
  apply (delta_screening_deletions_return COPRA_LABELS twoPairsGraph deletedEdge
           twoPairsCommunities [1; 1; 1; 1]%Q (1 # 10) Hw He Hd).
Defined.

(** X22.  With the [SELF] switch off, a vertex all of whose edges are
    self-loops is scanned without any effect on the scratch state, and
    without any access to the labelset table. *)
Theorem copraScanCommunities_only_self_loops (s : Scan) (x : Graph) (u : K)
    (vcom : list Labelset) :
  Forall (fun e : K * V => fst e = u) (edges x u) ->
  copraScanCommunities false s x u vcom = Ok s.
Proof.
  intros H. unfold copraScanCommunities. apply foldM_fixed.
  eapply Forall_impl; [exact H|]. intros e He. cbv beta. rewrite He.
  apply copraScanCommunity_self_loop.
Qed.

Lemma copraScanCommunities_only_self_loops_witness :
  Forall (fun e : K * V => fst e = 0) (edges selfLoopGraph 0)
  /\ copraScanCommunities false ([], [0]%Q) selfLoopGraph 0 [] = Ok ([], [0]%Q).
Proof.
  assert (H : Forall (fun e : K * V => fst e = 0) (edges selfLoopGraph 0)).
  { cbn. repeat constructor. }
  split; [exact H|].
  apply (copraScanCommunities_only_self_loops ([], [0]%Q) selfLoopGraph 0 [] H).
Defined.

(** X23.  Insertions never take a flag away: every vertex that
    delta-screening flags for the deletions of a batch alone is also
    flagged for the whole batch. *)
Theorem copraAffectedVerticesDeltaScreening_insertions_only_add (L : nat) (x : Graph)
    (deletions : list (K * K)) (insertions : list (K * K * V))
    (vcom : list Labelset) (vtot : list V) (B : V) (g0 g : list bool) :
  copraAffectedVerticesDeltaScreening L x deletions [] vcom vtot B = Ok g0 ->
  copraAffectedVerticesDeltaScreening L x deletions insertions vcom vtot B = Ok g ->
  flagsIncluded g0 g.
Proof.
  unfold copraAffectedVerticesDeltaScreening. cbv zeta. intros H0 H.
  inv_bind H0 as fs1 Hdel H0. cbn [length screenInsertions bind] in H0.
  rewrite Hdel in H. cbn [bind] in H. inv_bind H as fs2 Hins H.
  apply screenInsertions_included in Hins as (I1 & I2 & I3).
  apply propagateAll_Ok in H as [Hinc Hprop].
  intros t Ht. unfold propagateAll in H0.
  destruct (propagateAll_origin _ _ _ _ _ _ _ _ H0 Ht)
    as [Hv|[(u & Hu & Hn & He)|(Hk & c & Hc & Hcs)]].
  - apply Hinc, I1, Hv.
  - destruct (Hprop u Hu) as [P1 _]. apply P1; [apply I2, Hn|exact He].
  - destruct (Hprop t Hk) as [_ P2]. apply (P2 c Hc). apply I3, Hcs.
Qed.

Lemma copraAffectedVerticesDeltaScreening_insertions_only_add_witness :
  copraAffectedVerticesDeltaScreening COPRA_LABELS twoPairsGraph deletedEdge []
    twoPairsCommunities [1; 1; 1; 1]%Q (1 # 10)
  = Ok [true; true; false; false]
  /\ copraAffectedVerticesDeltaScreening COPRA_LABELS twoPairsGraph deletedEdge
       insertedEdge twoPairsCommunities [1; 1; 1; 1]%Q (1 # 10)
     = Ok [true; true; false; false]
  /\ flagsIncluded [true; true; false; false] [true; true; false; false].
Proof.
  assert (H0 : copraAffectedVerticesDeltaScreening COPRA_LABELS twoPairsGraph
                 deletedEdge [] twoPairsCommunities [1; 1; 1; 1]%Q (1 # 10)
               = Ok [true; true; false; false]) by reflexivity.
  assert (H : copraAffectedVerticesDeltaScreening COPRA_LABELS twoPairsGraph
                deletedEdge insertedEdge twoPairsCommunities [1; 1; 1; 1]%Q (1 # 10)
              = Ok [true; true; false; false]) by reflexivity.
  split; [exact H0|]. split; [exact H|].
  apply (copraAffectedVerticesDeltaScreening_insertions_only_add COPRA_LABELS
           twoPairsGraph deletedEdge insertedEdge twoPairsCommunities
           [1; 1; 1; 1]%Q (1 # 10) _ _ H0 H).
Defined.

(** ** Scanning, then selecting *)

Lemma scratchPositive_weights (s : Scan) :
  scratchPositive s ->
  inRange (snd s) (fst s)
  /\ Forall (fun c => (0 < weightOf (snd s) c)%Q) (fst s).
Proof.
  intros (_ & _ & Hiff). split; apply Forall_forall; intros c Hc;
    apply Hiff in Hc as (x & Hx & Hpos).
  - eapply lookup_lt_Some. exact Hx.
  - unfold weightOf. rewrite Hx. exact Hpos.
Qed.

Lemma length_qualifying (vcs : list K) (vcout : list V) (WTH : V) :
  length (qualifying vcs vcout WTH) <= length vcs.
Proof.
  unfold qualifying. induction vcs as [|c vcs IH]; cbn [List.filter length]; [lia|].
  destruct (meetsThreshold vcout WTH c); cbn [length]; lia.
Qed.

(** X25.  Selecting after a scan with positive weights: on a scratch state
    whose touched list is exactly the set of communities of positive
    accumulated weight, as the scanner leaves it for positive edge weights
    and coefficients, [copraChooseCommunity] never divides by zero, whatever
    the threshold, and it returns a labelset whenever the labelset has a
    slot for every touched community. *)
Theorem copraChooseCommunity_after_positive_scan
    (L : nat) (u : K) (s : Scan) (WTH : V) :
  scratchPositive s ->
  copraChooseCommunity L u (fst s) (snd s) WTH <> DivByZero
  /\ (1 <= L -> length (fst s) <= L ->
      exists a, copraChooseCommunity L u (fst s) (snd s) WTH = Ok a).
Proof.
  intros Hs. destruct (scratchPositive_weights s Hs) as [Hin Hpos].
  rewrite (copraChooseCommunity_spec (snd s) WTH L u (fst s) Hin). cbv zeta.
  assert (Hcases : forall r : result Labelset,
             r = match candidates (fst s) (snd s) WTH with
                 | [] => Ok (singletonLabelset L u)
                 | _ :: _ =>
                   if isZero (totalWeight (snd s) (candidates (fst s) (snd s) WTH))
                   then DivByZero
                   else Ok (labelsetOf L
                              (normalized (snd s)
                                 (totalWeight (snd s) (candidates (fst s) (snd s) WTH))
                                 (candidates (fst s) (snd s) WTH)))
                 end ->
             exists a, r = Ok a).
  { intros r ->. destruct (candidates (fst s) (snd s) WTH) as [|c cs] eqn:Ec; [eauto|].
    assert (Htot : (0 < totalWeight (snd s) (c :: cs))%Q).
    { rewrite <- Ec. apply weights_positive_total.
      - apply candidates_subset, Hpos.
      - rewrite Ec. discriminate. }
    assert (Hz : isZero (totalWeight (snd s) (c :: cs)) = false)
      by (apply isZero_false; lra).
    rewrite Hz. eauto. }
  split.
  - destruct ((L =? 0) || (L <? length (qualifying (fst s) (snd s) WTH)));
      [discriminate|].
    destruct (Hcases _ eq_refl) as [a ->]. discriminate.
  - intros HL Hfit.
    rewrite capacity_check_passes
      by (try exact HL; pose proof (length_qualifying (fst s) (snd s) WTH); lia).
    apply Hcases. reflexivity.
Qed.

Lemma copraChooseCommunity_after_positive_scan_witness :
  scratchPositive ([2; 1], [0; 5 # 4; 15 # 4]%Q)
  /\ copraChooseCommunity COPRA_LABELS 0 (fst ([2; 1], [0; 5 # 4; 15 # 4]%Q))
       (snd ([2; 1], [0; 5 # 4; 15 # 4]%Q)) 9%Q <> DivByZero
  /\ (1 <= COPRA_LABELS ->
      length (fst ([2; 1], [0; 5 # 4; 15 # 4]%Q)) <= COPRA_LABELS ->
      exists a, copraChooseCommunity COPRA_LABELS 0 (fst ([2; 1], [0; 5 # 4; 15 # 4]%Q))
                  (snd ([2; 1], [0; 5 # 4; 15 # 4]%Q)) 9%Q = Ok a).
Proof.
  assert (Hs : scratchPositive ([2; 1], [0; 5 # 4; 15 # 4]%Q)).
  { pose proof (scanLabels_positive 5 [(2, 3 # 4); (1, 1 # 4); (0, 0%Q)]) as Hp.
    apply (Hp eq_refl) with (s := ([], replicate 3 0%Q)).
    - cbn. repeat constructor.
    - apply scratchPositive_clean.
    - vm_compute. reflexivity. }
  split; [exact Hs|].
  apply (copraChooseCommunity_after_positive_scan COPRA_LABELS 0
           ([2; 1], [0; 5 # 4; 15 # 4]%Q) 9%Q Hs).
Defined.
